(** * dataset.py: feature normalisation, paired batching and score decoding

    A shallow embedding of [src/dataset.py]: the two padding functions of
    [Dataset] ([padLyrics], [padNote]), its constructor, the batching
    interface ([__len__], [__getitem__]), the synchronised [shuffle], the
    decoder [vec2midi], and of the corpus functions [load], [loadPath] and
    the split of [save].

    Conventions of the embedding.
    - Python [int]s are [Z]; lengths, and the fixed dimensions of [config]
      ([music.Ci], [music.L], [lyrics.L]), are [nat].  Tempi are rationals:
      the rounding of Python floats is not modelled.
    - A Python list is a [list]; [l[:n]] is [take n l], [l + m] is [l ++ m],
      [[x]*n] and [[x for _ in range(n)]] are [replicate n x].
    - A [dict] is an association list in insertion order with unique keys.
    - What a column holds is a number or a list of such values, nested to
      any depth; a list operation on a number raises [TypeError].
    - Exceptions are the [Err] branch of [result].
    - [midiutil] is modelled as far as [vec2midi] calls it: [addTempo]
      divides by the tempo, and [addNote] binds its keyword arguments.  The
      track count of [MIDIFile] is taken to fit the 16-bit field of the
      file header. *)

From Stdlib Require Import ZArith QArith Qround Lia.
From stdpp Require Import base decidable option list strings.

Local Open Scope Z_scope.
Local Open Scope nat_scope.

(** ** Python runtime: exceptions, dicts, slices *)

Module Py.

Inductive error :=
| IndexError (i bound : Z)   (* raised by __getitem__ with the message Index i out of range (bound) *)
| KeyError (k : string)      (* d[k] on a dict without the key k *)
| LookupError                (* a subscript the indexed object does not have *)
| TypeError
| ValueError                 (* len() of an object whose __len__ is negative *)
| ZeroDivisionError
| AttributeError.            (* reading an attribute that was never assigned *)

Inductive result (A : Type) :=
| Ok (a : A)
| Err (e : error).
Global Arguments Ok {A} a.
Global Arguments Err {A} e.

Global Instance result_ret : MRet result := λ A a, Ok a.
Global Instance result_bind : MBind result := λ A B f m,
  match m with Ok a => f a | Err e => Err e end.

(** [for x in l: acc = f(acc, x)] where the body may raise. *)
Fixpoint foldM {A B} (f : A → B → result A) (a : A) (l : list B) : result A :=
  match l with
  | [] => Ok a
  | x :: l => a' ← f a x; foldM f a' l
  end.

Definition dict (V : Type) := list (string * V).

(** [d.get(k)] *)
Fixpoint dict_get {V} (k : string) (d : dict V) : option V :=
  match d with
  | [] => None
  | (k', v) :: d => if decide (k' = k) then Some v else dict_get k d
  end.

(** [k in d] *)
Definition dict_in {V} (k : string) (d : dict V) : bool :=
  bool_decide (is_Some (dict_get k d)).

(** [d[k]] *)
Definition dict_item {V} (k : string) (d : dict V) : result V :=
  match dict_get k d with
  | Some v => Ok v
  | None => Err (KeyError k)
  end.

(** [d[k] = v]: an existing key keeps its place, a new key goes last. *)
Fixpoint dict_set {V} (k : string) (v : V) (d : dict V) : dict V :=
  match d with
  | [] => [(k, v)]
  | (k', v') :: d =>
      if decide (k' = k) then (k, v) :: d else (k', v') :: dict_set k v d
  end.

(** [list(d)] and [list(d.values())] *)
Definition dict_keys {V} (d : dict V) : list string := fst <$> d.
Definition dict_values {V} (d : dict V) : list V := snd <$> d.

(** A slice bound [k] of a sequence of length [len]: a negative bound counts
    from the end, and either way it is clamped to [0..len]. *)
Definition slice_index (len : nat) (k : Z) : nat :=
  if decide (k < 0)%Z
  then Z.to_nat (Z.max (k + Z.of_nat len) 0)
  else Z.to_nat (Z.min k (Z.of_nat len)).

(** [l[b:e]], where [e] may be [None]. *)
Definition slice {A} (l : list A) (b : Z) (e : option Z) : list A :=
  let start := slice_index (length l) b in
  let stop := match e with
              | Some e => slice_index (length l) e
              | None => length l
              end in
  take (stop - start) (drop start l).

(** [zip] applied to the unpacked list of columns [cols]: the tuples of the entries at one index of all of [cols], up
    to the length of the shortest; no tuples when there are no columns. *)
Fixpoint zip_star {A} (cols : list (list A)) : list (list A) :=
  match cols with
  | [] => []
  | [c] => (λ x, [x]) <$> c
  | c :: cols => zip_with cons c (zip_star cols)
  end.

(** [enumerate(l, start)] *)
Fixpoint enumerate {A} (start : nat) (l : list A) : list (nat * A) :=
  match l with
  | [] => []
  | x :: l => (start, x) :: enumerate (S start) l
  end.

End Py.

Import Py.

(** ** The module [random] *)

Module Random.

(** The state of the module-level generator: the raw draws still to come. *)
Definition rng := nat → nat.

(** [_randbelow(n)] for [n > 0]: a number below [n], and the generator moves
    on. *)
Definition randbelow (g : rng) (n : nat) : nat * rng :=
  (g 0 `mod` n, λ k, g (S k)).

(** [x[i], x[j] = x[j], x[i]] for in-range [i] and [j]. *)
Definition swap {A} (x : list A) (i j : nat) : list A :=
  match x !! i, x !! j with
  | Some xi, Some xj => <[j := xi]> (<[i := xj]> x)
  | _, _ => x
  end.

(** The loop of [random.shuffle(x)], from index [i] downwards:
    [for i in reversed(range(1, len(x))): j = randbelow(i + 1); swap]. *)
Fixpoint shuffle_from {A} (i : nat) (g : rng) (x : list A) : list A * rng :=
  match i with
  | 0 => (x, g)
  | S i' =>
      let '(j, g) := randbelow g (i + 1) in
      shuffle_from i' g (swap x i j)
  end.

Definition shuffle {A} (g : rng) (x : list A) : list A * rng :=
  shuffle_from (length x - 1) g x.

End Random.

(** ** [config] *)

(** [dataset.py] imports the module [config]; the fields it reads are
    gathered in a record. *)
Record config := Config {
  music_Ci : nat;                       (* config.music.Ci *)
  music_L : nat;                        (* config.music.L *)
  music_feat2id : dict Z;               (* config.music.feat2id *)
  lyrics_L : nat;                       (* config.lyrics.L *)
  tempo_default : Q;                    (* config.tempo.default *)
}.

(** ** Feature normaliser *)

Module Normalizer.

(** The inner [padLyrics(lyr)] of [Dataset.padLyrics], closed over [pv]. *)
Definition padLyrics1 {A} (cfg : config) (pv : A) (lyr : list A) : list A :=
  let L := lyrics_L cfg in
  if decide (length lyr < L)
  then lyr ++ replicate (L - length lyr) pv
  else take L lyr.

(** One iteration of [for track in note] of the inner [padNote(note)]. *)
Definition padTrack (cfg : config) (track : list Z) : list Z :=
  let L := music_L cfg in
  if decide (length track < L)
  then track ++ replicate (L - length track) 0%Z
  else take L track.

(** The inner generator [padNote(note)] of [Dataset.padNote], collected by
    [list(...)]: first the padded tracks of the (possibly cut) matrix, then
    one zero track for each index of [range(len(note), Ci)]. *)
Definition padNote1 (cfg : config) (note : list (list Z)) : list (list Z) :=
  let Ci := music_Ci cfg in
  let L := music_L cfg in
  let note := if decide (Ci < length note) then take Ci note else note in
  (padTrack cfg <$> note) ++ replicate (Ci - length note) (replicate L 0%Z).

End Normalizer.

Import Normalizer.

(** ** The class [Dataset] *)

Module Dataset.

(** One entry of a column, as [pd.read_json] gives it: a number, or a list
    of such values. *)
Local Unset Elimination Schemes.
Inductive entry :=
| VInt (n : Z)
| VFloat (x : Q)
| VList (l : list entry).
Local Set Elimination Schemes.

(** The entries the docstring of [__init__] names: a lyrics vector, the
    note matrix of a music snippet, and its tempo. *)
Definition Lyrics (lyr : list Z) : entry := VList (VInt <$> lyr).
Definition Note (note : list (list Z)) : entry :=
  VList ((λ track, VList (VInt <$> track)) <$> note).
Definition Tempo (t : Q) : entry := VFloat t.

(** What [len(v)], [v[:n]], [v + [...]] and [for x in v] need of [v]: a list.
    On a number they raise [TypeError]. *)
Definition as_list (v : entry) : result (list entry) :=
  match v with
  | VList l => Ok l
  | _ => Err TypeError
  end.

Abbreviation column := (list entry).
Abbreviation bundle := (dict column).

(** [self.inp] and [self.tar] are references: they are two dicts, or one dict
    under both names (as in [Dataset(tar, tar, ...)] of [load]), and an
    assignment through one name is then seen through the other. *)
Inductive bundles :=
| Distinct (inp tar : bundle)
| Shared (both : bundle).

(** The attributes of an instance; [size] is [None] until it is assigned. *)
Record t := Make {
  bs : Z;
  data : bundles;
  size : option Z;
}.

Inductive side := Inp | Tar.

Definition get (s : side) (self : t) : bundle :=
  match data self, s with
  | Distinct inp _, Inp => inp
  | Distinct _ tar, Tar => tar
  | Shared both, _ => both
  end.

Definition inp : t → bundle := get Inp.
Definition tar : t → bundle := get Tar.

(** [data[k] = v] for [data] one of [self.inp], [self.tar]. *)
Definition set_item (s : side) (k : string) (v : column) (self : t) : t :=
  let data' :=
    match data self, s with
    | Distinct inp tar, Inp => Distinct (dict_set k v inp) tar
    | Distinct inp tar, Tar => Distinct inp (dict_set k v tar)
    | Shared both, _ => Shared (dict_set k v both)
    end in
  Make (bs self) data' (size self).

Definition set_size (n : Z) (self : t) : t :=
  Make (bs self) (data self) (Some n).

(** Reading [self.size]. *)
Definition get_size (self : t) : result Z :=
  match size self with
  | Some n => Ok n
  | None => Err AttributeError
  end.

(** [padLyrics(self, data, pv)]: the inner [padLyrics] is [padLyrics1], once
    [len(lyr)] has found a list. *)
Definition padLyrics (cfg : config) (data : bundle) (pv : Z) : result column :=
  col ← dict_item "lyrics" data;
  mapM (λ lyrics, lyr ← as_list lyrics;
                  Ok (VList (padLyrics1 cfg (VInt pv) lyr))) col.

(** One iteration of [for track in note] of the inner [padNote(note)], on
    an entry of the matrix. *)
Definition padTrack_entry (cfg : config) (track : entry) : result entry :=
  let L := music_L cfg in
  track ← as_list track;
  Ok (VList (if decide (length track < L)
             then track ++ replicate (L - length track) (VInt 0)
             else take L track)).

(** [list(padNote(note))] on an entry of the [note] column: on a matrix of
    embeddings it is [padNote1]. *)
Definition padNote_entry (cfg : config) (note : entry) : result entry :=
  let Ci := music_Ci cfg in
  let L := music_L cfg in
  note ← as_list note;
  let note := if decide (Ci < length note) then take Ci note else note in
  tracks ← mapM (padTrack_entry cfg) note;
  Ok (VList (tracks ++ replicate (Ci - length note) (VList (replicate L (VInt 0))))).

(** [padNote(self, data)] *)
Definition padNote (cfg : config) (data : bundle) : result column :=
  col ← dict_item "note" data;
  mapM (padNote_entry cfg) col.

(** The body of [for data in [self.inp, self.tar]] of [__init__]. *)
Definition init_bundle (cfg : config) (pv : Z) (self : t) (s : side) : result t :=
  self ← (if dict_in "lyrics" (get s self) then
            lyrics ← padLyrics cfg (get s self) pv;
            let self := set_item s "lyrics" lyrics self in
            col ← dict_item "lyrics" (get s self);
            Ok (set_size (Z.of_nat (length col)) self)
          else Ok self);
  if dict_in "note" (get s self) then
    note ← padNote cfg (get s self);
    let self := set_item s "note" note self in
    col ← dict_item "note" (get s self);
    Ok (set_size (Z.of_nat (length col)) self)
  else Ok self.

(** [Dataset(inp, tar, batch_size, pad_value)]; [data] gives the two
    arguments [inp] and [tar] and says whether they are one object. *)
Definition __init__ (cfg : config) (data : bundles) (batch_size : Z) (pad_value : Z)
  : result t :=
  foldM (init_bundle cfg pad_value) (Make batch_size data None) [Inp; Tar].

(** [__len__(self)]; Python's [//] is the floor division [Z.div] and raises
    on a zero divisor. *)
Definition __len__ (self : t) : result Z :=
  size ← get_size self;
  if decide (bs self = 0%Z) then Err ZeroDivisionError
  else Ok ((size + bs self - 1) `div` bs self)%Z.

(** The builtin [len(self)]: it calls [__len__] and refuses a negative
    result. *)
Definition len (self : t) : result Z :=
  n ← __len__ self;
  if decide (n < 0)%Z then Err ValueError else Ok n.

(** [torch.Tensor(rows)]: the array holding the sliced rows. *)
Inductive tensor := Tensor (rows : list entry).

(** One component of the pair that [__getitem__] returns. *)
Inductive batch :=
| BNone
| BLyrics (lyrics : tensor)
| BNoteTempo (note tempo : tensor).

(** The bounds [begin] and [end] that [__getitem__] computes, once the index
    is in range. *)
Definition bounds (self : t) (i : Z) : result (Z * option Z) :=
  let begin := (bs self * i)%Z in
  let end_ := (begin + bs self)%Z in
  size ← get_size self;
  Ok (begin, if decide (size ≤ end_)%Z then None else Some end_).

(** The body of [for n, data in [(0, self.inp), (1, self.tar)]]: the value
    left in [pair[n]]. *)
Definition batch_of (data : bundle) (begin : Z) (end_ : option Z) : result batch :=
  p ← (if dict_in "lyrics" data then
         lyrics ← dict_item "lyrics" data;
         Ok (BLyrics (Tensor (slice lyrics begin end_)))
       else Ok BNone);
  if dict_in "note" data then
    note ← dict_item "note" data;
    tempo ← dict_item "tempo" data;
    Ok (BNoteTempo (Tensor (slice note begin end_)) (Tensor (slice tempo begin end_)))
  else Ok p.

Definition __getitem__ (self : t) (i : Z) : result (batch * batch) :=
  n ← len self;
  if decide (n ≤ i)%Z then
    n ← len self; Err (IndexError i (n - 1))
  else
    '(begin, end_) ← bounds self i;
    b_inp ← batch_of (inp self) begin end_;
    b_tar ← batch_of (tar self) begin end_;
    Ok (b_inp, b_tar).

(** The two assignment loops of [shuffle]: [for k, v in zip(d, cols): d[k] = v]. *)
Definition assign (s : side) (cols : list column) (self : t) : t :=
  foldl (λ self '(k, v), set_item s k v self) self
        (zip (dict_keys (get s self)) cols).

(** [shuffle(self)], threading the state of the random generator. *)
Definition shuffle (g : Random.rng) (self : t) : t * Random.rng :=
  let data := dict_values (inp self) ++ dict_values (tar self) in
  let data := zip_star data in
  let '(data, g) := Random.shuffle g data in
  let data := zip_star data in
  let self := assign Inp (take (length (inp self)) data) self in
  let self := assign Tar (drop (length (inp self)) data) self in
  (self, g).

End Dataset.

(** ** The score container of [midiutil] *)

Module Midi.

(** A note as [addNote] receives it: the track, the channel, and the keyword
    arguments unpacked from the note's dict (among them [time]). *)
Record note_event := NoteEvent {
  ev_track : nat;
  ev_channel : nat;
  ev_note : dict Z;
}.

Record MIDIFile := Make {
  tempo_events : list (nat * Z * Q);      (* track, time, tempo *)
  tracks : list (list note_event);
}.

(** [MIDIFile(numTracks)] *)
Definition create (numTracks : nat) : MIDIFile :=
  Make [] (replicate numTracks []).

(** [midi.addTempo(track, time, tempo)]: the tempo event stores
    [int(60000000 / tempo)]. *)
Definition addTempo (track : nat) (time : Z) (tempo : Q) (midi : MIDIFile)
  : result MIDIFile :=
  if Qeq_bool tempo 0 then Err ZeroDivisionError
  else Ok (Make (tempo_events midi ++ [(track, time, tempo)]) (tracks midi)).

(** The parameters of
    [addNote(self, track, channel, pitch, time, duration, volume, annotation=None)]
    that are left for the keywords of [note] once [track] and [channel]
    are given, and those of them without a default. *)
Definition addNote_keywords : list string :=
  ["pitch"; "time"; "duration"; "volume"; "annotation"].
Definition addNote_required : list string :=
  ["pitch"; "time"; "duration"; "volume"].

(** The call [addNote(track=..., channel=..., **note)] binds its arguments:
    every keyword of [note] is a parameter still free, and every parameter
    without a default is among the keywords. *)
Definition accepts (keywords : list string) : bool :=
  forallb (λ k, bool_decide (k ∈ addNote_keywords)) keywords
  && forallb (λ k, bool_decide (k ∈ keywords)) addNote_required.

(** [midi.addNote(track=track, channel=channel, **note)]: a call that does
    not bind raises [TypeError]; else the event goes to the end of the
    track's list, and a track the file does not have is a failed
    subscript. *)
Definition addNote (track channel : nat) (note : dict Z) (midi : MIDIFile)
  : result MIDIFile :=
  if accepts (dict_keys note) then
    match tracks midi !! track with
    | Some events =>
        Ok (Make (tempo_events midi)
                 (<[track := events ++ [NoteEvent track channel note]]> (tracks midi)))
    | None => Err LookupError
    end
  else Err TypeError.

(** The onset of an event: its [time] keyword. *)
Definition onset (ev : note_event) : option Z := dict_get "time" (ev_note ev).

(** The events of track [c], in the order they were added; a track the file
    does not have holds none. *)
Definition track (midi : MIDIFile) (c : nat) : list note_event :=
  default [] (tracks midi !! c).

End Midi.

(** ** [vec2midi] *)

Module Decoder.

(** What [m2v.id2Note] returns: an object read by subscript, [note[id]]. *)
Definition raw_note := Z → option Z.

Definition raw_item (note : raw_note) (id : Z) : result Z :=
  match note id with
  | Some v => Ok v
  | None => Err LookupError
  end.

Section vec2midi.
Context (cfg : config) (id2Note : Z → raw_note).

(** [{feat: note[id] for feat, id in feat2id}] *)
Definition remap (note : raw_note) : result (dict Z) :=
  foldM (λ d '(feat, id), v ← raw_item note id; Ok (dict_set feat v d))
        [] (music_feat2id cfg).

(** The body of [for note_emb in channel_notes], on the loop state
    [(time, midi)]. *)
Definition add_note_emb (channel : nat) (st : Z * Midi.MIDIFile) (note_emb : Z)
  : result (Z * Midi.MIDIFile) :=
  let '(time, midi) := st in
  note ← remap (id2Note note_emb);
  t ← dict_item "time" note;
  let time := (t + time)%Z in
  let note := dict_set "time" time note in
  midi ← Midi.addNote channel channel note midi;
  Ok (time, midi).

(** The body of [for channel, channel_notes in enumerate(notes)]. *)
Definition add_channel (midi : Midi.MIDIFile) (c : nat * list Z)
  : result Midi.MIDIFile :=
  let '(channel, channel_notes) := c in
  st ← foldM (add_note_emb channel) (0%Z, midi) channel_notes;
  Ok st.2.

Definition vec2midi (vec : list (list Z) * Q) : result Midi.MIDIFile :=
  let '(notes, tempo) := vec in
  let midi := Midi.create (music_Ci cfg) in
  midi ← Midi.addTempo 0 0 (tempo * tempo_default cfg)%Q midi;
  foldM add_channel midi (enumerate 0 notes).

End vec2midi.

End Decoder.

(** ** Notions of the specification *)

Module Spec.

Import Dataset.

Global Instance entry_inhabited : Inhabited entry := populate (Tempo 0).

(** A column read at the indices [σ], in that order: position [k] of the
    result holds what the column held at index [σ[k]]. *)
Definition reindex {A} `{Inhabited A} (σ : list nat) (col : list A) : list A :=
  (λ j, col !!! j) <$> σ.

(** [ceil(size / batchSize)], over the rationals. *)
Definition ceil_div (size batchSize : Z) : Z :=
  Qceiling (inject_Z size / inject_Z batchSize).

(** The slice of a column that batch [i] holds: [__getitem__] cuts every
    column it returns at the bounds of [bounds]. *)
Definition column_batch (self : t) (col : column) (i : Z) : result column :=
  '(begin, end_) ← bounds self i;
  Ok (slice col begin end_).







(** The score [vec2midi] has before its loop over the channels: [Ci]
    empty tracks and the tempo event. *)
Definition started (cfg : config) (tempo : Q) : Midi.MIDIFile :=
  Midi.Make [(0, 0%Z, (tempo * tempo_default cfg)%Q)]
            (replicate (music_Ci cfg) []).

(** The [time] field an embedding decodes to: the one read by
    [note['time']] after the remapping, when there is one. *)
Definition decoded_time (cfg : config) (id2Note : Z → Decoder.raw_note)
    (note_emb : Z) : option Z :=
  match Decoder.remap cfg (id2Note note_emb) with
  | Ok note => dict_get "time" note
  | Err _ => None
  end.

(** The running sums of [deltas] on top of [acc]. *)
Fixpoint running_sums (acc : Z) (deltas : list Z) : list Z :=
  match deltas with
  | [] => []
  | d :: deltas => (d + acc)%Z :: running_sums (d + acc)%Z deltas
  end.


(** [decodes c time embs events]: from the accumulator [time], the embeddings
    [embs] of channel [c] decode to [events], one event for each embedding,
    the decoded [time] of each added to the accumulator. *)
Inductive decodes (cfg : config) (id2Note : Z → Decoder.raw_note) (c : nat)
  : Z → list Z → list Midi.note_event → Prop :=
| decodes_nil time : decodes cfg id2Note c time [] []
| decodes_cons time note_emb embs note t events :
    Decoder.remap cfg (id2Note note_emb) = Ok note →
    dict_get "time" note = Some t →
    decodes cfg id2Note c (t + time)%Z embs events →
    decodes cfg id2Note c time (note_emb :: embs)
      (Midi.NoteEvent c c (dict_set "time" (t + time)%Z note) :: events).

End Spec.

(** ** Concrete configurations for the scenarios *)

Module Scenario.

(** [Ci = 2], [L_note = 2], [L_lyr = 3]; the feature map names the raw
    fields [0] to [3] [time], [pitch], [duration] and [volume], the keywords
    [addNote] asks for. *)
Definition cfg : config :=
  Config 2 2 [("time", 0%Z); ("pitch", 1%Z); ("duration", 2%Z); ("volume", 3%Z)]
         3 1%Q.

(** The same dimensions with a feature map that names [time] and [pitch]
    only. *)
Definition cfg_time_pitch : config :=
  Config 2 2 [("time", 0%Z); ("pitch", 1%Z)] 3 1%Q.

(** A decoder for which the embedding [1] resolves to [time = 10],
    [pitch = 60], [duration = 1] and [volume = 100], and every other
    embedding, the pad [0] among them, to a note of zeros. *)
Definition id2Note (note_emb : Z) : Decoder.raw_note := λ id,
  if decide (note_emb = 1%Z) then
    if decide (id = 0%Z) then Some 10%Z
    else if decide (id = 1%Z) then Some 60%Z
    else if decide (id = 2%Z) then Some 1%Z
    else if decide (id = 3%Z) then Some 100%Z
    else None
  else if decide (0 ≤ id ≤ 3)%Z then Some 0%Z else None.

(** A decoder for which the embedding [n] resolves to [time = n],
    [pitch = 60], [duration = 1] and [volume = 100]. *)
Definition delta_id2Note (note_emb : Z) : Decoder.raw_note := λ id,
  if decide (id = 0%Z) then Some note_emb
  else if decide (id = 1%Z) then Some 60%Z
  else if decide (id = 2%Z) then Some 1%Z
  else if decide (id = 3%Z) then Some 100%Z
  else None.

(** The score decoded from one channel of the embeddings [5, 0, 3]. *)
Definition delta_score : Midi.MIDIFile :=
  match Decoder.vec2midi cfg delta_id2Note ([[5; 0; 3]%Z], 1%Q) with
  | Ok midi => midi
  | Err _ => Midi.create 0
  end.

(** The dataset of the batching scenario: seven records, batches of three,
    built by the constructor from a lyrics bundle and a note bundle. *)
Definition inp : Dataset.bundle :=
  [("lyrics", (λ n, Dataset.Lyrics [n]) <$> [1; 2; 3; 4; 5; 6; 7]%Z)].
Definition tar : Dataset.bundle :=
  [("note", (λ n, Dataset.Note [[n]]) <$> [1; 2; 3; 4; 5; 6; 7]%Z);
   ("tempo", (λ n, Dataset.Tempo (inject_Z n)) <$> [1; 2; 3; 4; 5; 6; 7]%Z)].

Definition dataset : Dataset.t :=
  match Dataset.__init__ cfg (Dataset.Distinct inp tar) 3 0 with
  | Ok self => self
  | Err _ => Dataset.Make 3 (Dataset.Distinct inp tar) None
  end.

(** Its normalised [lyrics] column. *)
Definition lyrics_column : Dataset.column :=
  default [] (dict_get "lyrics" (Dataset.inp dataset)).

(** A state of the random generator. *)
Definition rng : Random.rng := λ k, 7 * k + 1.

End Scenario.


From stdpp Require Import sorting.

(** ** Notions for the constructor *)

Module Construct.

Import Dataset.

(** [dict_alter f k d]: the dict [d] with the value under [k], when there is
    one, replaced by its image under [f]. *)
Fixpoint dict_alter {V} (f : V → V) (k : string) (d : dict V) : dict V :=
  match d with
  | [] => []
  | (k', v) :: d =>
      if decide (k' = k) then (k', f v) :: d else (k', v) :: dict_alter f k d
  end.

(** Entries typed as the docstring of [__init__] has them: a lyrics
    vector is a list of integers, a note matrix a list of such lists. *)
Definition is_int (v : entry) : bool :=
  match v with VInt _ => true | _ => false end.

Definition is_list (v : entry) : bool :=
  match v with VList _ => true | _ => false end.

Definition is_lyrics (e : entry) : bool :=
  match e with VList lyr => forallb is_int lyr | _ => false end.

Definition is_note (e : entry) : bool :=
  match e with VList note => forallb is_lyrics note | _ => false end.

(** A bundle typed as the docstring of [__init__] has it: what is under
    [lyrics] are lyrics vectors and what is under [note] are note matrices. *)
Definition well_typed (data : bundle) : bool :=
  match dict_get "lyrics" data with
  | Some col => forallb is_lyrics col
  | None => true
  end
  && match dict_get "note" data with
     | Some col => forallb is_note col
     | None => true
     end.

(** The entries the two normalisers can work on: under [lyrics] any list,
    under [note] a list whose first [Ci] elements are lists. *)
Definition note_ok (cfg : config) (e : entry) : bool :=
  match e with
  | VList note => forallb is_list (take (music_Ci cfg) note)
  | _ => false
  end.

Definition acceptable (cfg : config) (data : bundle) : bool :=
  match dict_get "lyrics" data with
  | Some col => forallb is_list col
  | None => true
  end
  && match dict_get "note" data with
     | Some col => forallb (note_ok cfg) col
     | None => true
     end.

(** A list entry cut or filled up to [L_lyr] elements; anything else as it
    is. *)
Definition norm_lyrics (cfg : config) (pv : Z) (e : entry) : entry :=
  match e with
  | VList lyr =>
      VList (take (lyrics_L cfg) lyr
             ++ replicate (lyrics_L cfg - length lyr) (VInt pv))
  | _ => e
  end.

(** A list cut or filled up with zeros to [L_note] elements; anything else
    as it is. *)
Definition norm_track (cfg : config) (track : entry) : entry :=
  match track with
  | VList track =>
      VList (take (music_L cfg) track
             ++ replicate (music_L cfg - length track) (VInt 0))
  | _ => track
  end.

(** A list entry cut to its first [Ci] elements, each of them cut or
    filled up, and filled up to [Ci] elements with lists of [L_note] zeros;
    anything else as it is. *)
Definition norm_note (cfg : config) (e : entry) : entry :=
  match e with
  | VList note =>
      VList ((norm_track cfg <$> take (music_Ci cfg) note)
             ++ replicate (music_Ci cfg - length note)
                  (VList (replicate (music_L cfg) (VInt 0))))
  | _ => e
  end.

(** What the constructor leaves under the key [k] in place of the column
    [col]: the padded column for [lyrics] and [note], the column itself for
    every other key. *)
Definition normalized (cfg : config) (pv : Z) (k : string) (col : column) : column :=
  if decide (k = "lyrics") then norm_lyrics cfg pv <$> col
  else if decide (k = "note") then norm_note cfg <$> col
  else col.

(** A bundle after the body of the constructor's loop: the [lyrics] column
    padded, then the [note] column padded. *)
Definition normalize (cfg : config) (pv : Z) (data : bundle) : bundle :=
  dict_alter (fmap (norm_note cfg)) "note"
    (dict_alter (fmap (norm_lyrics cfg pv)) "lyrics" data).

(** The length the body of the constructor's loop assigns to [self.size] for
    one bundle: that of [note], else that of [lyrics], else none. *)
Definition counted (data : bundle) : option Z :=
  match dict_get "note" data with
  | Some col => Some (Z.of_nat (length col))
  | None =>
      match dict_get "lyrics" data with
      | Some col => Some (Z.of_nat (length col))
      | None => None
      end
  end.

(** [self.inp] or [self.tar] as a whole replaced by [d]; with one shared dict
    both names see [d]. *)
Definition set_bundle (s : side) (d : bundle) (self : t) : t :=
  Make (bs self)
       (match data self, s with
        | Distinct inp tar, Inp => Distinct d tar
        | Distinct inp tar, Tar => Distinct inp d
        | Shared _, _ => Shared d
        end)
       (size self).

(** The shapes of normalised entries: a list of [L_lyr] elements, and a
    list of [Ci] lists of [L_note] elements. *)
Definition lyrics_shaped (cfg : config) (e : entry) : bool :=
  match e with
  | VList lyr => bool_decide (length lyr = lyrics_L cfg)
  | _ => false
  end.

Definition track_shaped (cfg : config) (track : entry) : bool :=
  match track with
  | VList track => bool_decide (length track = music_L cfg)
  | _ => false
  end.

Definition note_shaped (cfg : config) (e : entry) : bool :=
  match e with
  | VList note =>
      bool_decide (length note = music_Ci cfg)
      && forallb (track_shaped cfg) note
  | _ => false
  end.

End Construct.

(** ** Notions for batch retrieval and the shuffle *)

Module Batch.

Import Dataset.


(** The length of the shortest of [cols]. *)
Fixpoint shortest {A} (cols : list (list A)) : nat :=
  match cols with
  | [] => 0
  | [c] => length c
  | c :: cols => length c `min` shortest cols
  end.

(** An instance whose columns are out of step: three lyrics, two notes. *)
Definition ragged : t :=
  Make 2
    (Distinct [("lyrics", [Lyrics [1]; Lyrics [2]; Lyrics [3]]%Z)]
              [("note", [Note [[1]]; Note [[2]]]%Z);
               ("tempo", [Tempo 1; Tempo 2; Tempo 3]%Q)])
    (Some 3%Z).

End Batch.

(** ** Notions for the feature remapping *)

Module Remap.

(** A named field [(feat', v)] of a remapped note reads the raw field that
    the entry [(feat, id)] of [feat2id] names. *)
Definition reads (note : Decoder.raw_note) (entry : string * Z) (field : string * Z)
  : Prop :=
  field.1 = entry.1 ∧ note entry.2 = Some field.2.

End Remap.

(** ** Instances that share a dict: [load] *)

Module Heap.

Import Dataset.

(** The dicts allocated so far; a reference to a dict is its index.  The
    references held by an instance are always allocated. *)
Definition store := list bundle.

(** The attributes of an instance, its two bundles held by reference. *)
Record handle := Handle {
  h_bs : Z;
  h_inp : nat;
  h_tar : nat;
  h_size : option Z;
}.

Definition deref (st : store) (r : nat) : bundle := default [] (st !! r).

(** The instance as its methods see it: two dicts, or one dict under both
    names when the two references are the same. *)
Definition view (st : store) (h : handle) : t :=
  Make (h_bs h)
       (if decide (h_inp h = h_tar h)
        then Shared (deref st (h_inp h))
        else Distinct (deref st (h_inp h)) (deref st (h_tar h)))
       (h_size h).

(** The store and the attributes after a method has left the instance as
    [self]: the dicts are written where the references point. *)
Definition commit (st : store) (h : handle) (self : t) : store * handle :=
  (match data self with
   | Distinct inp tar => <[h_tar h := tar]> (<[h_inp h := inp]> st)
   | Shared both => <[h_inp h := both]> st
   end,
   Handle (bs self) (h_inp h) (h_tar h) (size self)).

(** [Dataset(inp, tar, batch_size, pad_value)] on two references. *)
Definition init (cfg : config) (st : store) (inp tar : nat)
    (batch_size pad_value : Z) : result (store * handle) :=
  let h := Handle batch_size inp tar None in
  self ← __init__ cfg (data (view st h)) batch_size pad_value;
  Ok (commit st h self).

(** [dataset.shuffle()] *)
Definition shuffle (g : Random.rng) (st : store) (h : handle)
  : store * handle * Random.rng :=
  let '(self, g) := Dataset.shuffle g (view st h) in
  (commit st h self, g).

(** [load(filename)], from the columns [data.lyrics.tolist()],
    [data.note.tolist()] and [data.tempo.tolist()] that [pd.read_json]
    gives, and the two batch sizes of [config]: the dict [inp] is allocated
    at [0] and the dict [tar] at [1]; the result is
    [(dataset_ae, dataset_tr)]. *)
Definition load (cfg : config) (translator_batch_size autoencoder_batch_size : Z)
    (lyrics note tempo : column) : result (store * handle * handle) :=
  let inp : bundle := [("lyrics", lyrics)] in
  let tar : bundle := [("note", note); ("tempo", tempo)] in
  let st := [inp; tar] in
  '(st, dataset_tr) ← init cfg st 0 1 translator_batch_size 0;
  '(st, dataset_ae) ← init cfg st 1 1 autoencoder_batch_size 0;
  Ok (st, dataset_ae, dataset_tr).

(** The records of the scenario, loaded. *)
Definition loaded : store * handle * handle :=
  match load Scenario.cfg 3 2
          (default [] (dict_get "lyrics" Scenario.inp))
          (default [] (dict_get "note" Scenario.tar))
          (default [] (dict_get "tempo" Scenario.tar)) with
  | Ok r => r
  | Err _ => ([], Handle 0 0 0 None, Handle 0 0 0 None)
  end.

End Heap.

(** ** The files of the corpus: [loadPath] and the split of [save] *)

From Stdlib Require Import Ascii.
From stdpp Require Import gmap.

Module Files.

(** [s.replace('*', new)]: every star of [s] becomes [new]. *)
Fixpoint replace_star (new s : string) : string :=
  match s with
  | EmptyString => EmptyString
  | String c s =>
      if Ascii.eqb c "*"%char then new +:+ replace_star new s
      else String c (replace_star new s)
  end.

(** [sorted(l)] on strings.  Python orders strings by code point, which on
    their UTF-8 bytes is the order of [String.le]. *)
Definition sorted (l : list string) : list string := merge_sort String.le l.

(** One tuple [(id, name, lyr_path, midi_path)] of [loadPath]. *)
Definition path : Type := nat * string * string * string.

Definition path_id (p : path) : nat := p.1.1.1.
Definition path_name (p : path) : string := p.1.1.2.
Definition path_lyr (p : path) : string := p.1.2.
Definition path_midi (p : path) : string := p.2.

Section loadPath.

(** [glob(pattern)] on the file system as it is, the paths in the order the
    system lists them, and [os.path.splitext(os.path.basename(x))[0]]. *)
Variable glob : string → list string.
Variable name : string → string.

(** [loadPath(n, lyr_path, midi_path)] *)
Definition loadPath (n : option Z) (lyr_path midi_path : string) : list path :=
  let names : gset string :=
    list_to_set (name <$> glob lyr_path)
    ∩ list_to_set (name <$> glob midi_path) in
  let names := slice (sorted (elements names)) 0 n in
  (λ p : nat * string,
     (p.1, p.2, replace_star p.2 lyr_path, replace_star p.2 midi_path))
    <$> enumerate 0 names.

End loadPath.

(** [save(args)] up to the split, on the [paths] that [loadPath()] returned
    and the generator [g] as [random.seed(301)] left it: the pair
    [(train, valid)]. *)
Definition save_split {A} (g : Random.rng) (paths : list A) (split : Z)
  : result (list A * list A) :=
  let paths := (Random.shuffle g paths).1 in
  let n := Z.of_nat (length paths) in
  if decide (split = 0%Z) then Err ZeroDivisionError
  else Ok (slice paths (n `div` split)%Z None,
           slice paths 0 (Some (n `div` split)%Z)).

(** A corpus of four lyrics files and four scores, three songs in both. *)
Definition corpus_glob (pattern : string) : list string :=
  if decide (pattern = "seg/*.txt")
  then ["seg/c.txt"; "seg/a.txt"; "seg/d.txt"; "seg/b.txt"]
  else if decide (pattern = "csv/*.csv")
  then ["csv/b.csv"; "csv/e.csv"; "csv/c.csv"; "csv/a.csv"]
  else [].

(** [name] on the paths of the corpus: the letter after the slash. *)
Definition corpus_name (x : string) : string := String.substring 4 1 x.

End Files.
(** ** The model on concrete inputs *)

Example padLyrics1_pads : padLyrics1 Scenario.cfg 9%Z [1; 2]%Z = [1; 2; 9]%Z.
Proof. reflexivity. Qed.

Example padLyrics1_cuts : padLyrics1 Scenario.cfg 9%Z [1; 2; 3; 4]%Z = [1; 2; 3]%Z.
Proof. reflexivity. Qed.

Example padNote1_cuts_and_pads :
  padNote1 Scenario.cfg [[1; 2; 3]; [4]; [5]]%Z = [[1; 2]; [4; 0]]%Z.
Proof. reflexivity. Qed.

Example slice_negative_bounds :
  slice [1; 2; 3; 4; 5; 6; 7]%Z (-6) (Some (-3)%Z) = [2; 3; 4]%Z.
Proof. reflexivity. Qed.

Example scenario_size : Dataset.size Scenario.dataset = Some 7%Z.
Proof. reflexivity. Qed.

Example scenario_batch_1 :
  Spec.column_batch Scenario.dataset Scenario.lyrics_column 1
  = Ok ((λ n, Dataset.Lyrics [n; 0; 0]%Z) <$> [4; 5; 6]%Z).
Proof. reflexivity. Qed.

Example scenario_batch_2 :
  Spec.column_batch Scenario.dataset Scenario.lyrics_column 2
  = Ok [Dataset.Lyrics [7; 0; 0]%Z].
Proof. reflexivity. Qed.

Example scenario_getitem_3 :
  Dataset.__getitem__ Scenario.dataset 3 = Err (IndexError 3 2).
Proof. reflexivity. Qed.

Example scenario_getitem_last :
  Dataset.__getitem__ Scenario.dataset 2
  = Ok (Dataset.BLyrics (Dataset.Tensor [Dataset.Lyrics [7; 0; 0]%Z]),
        Dataset.BNoteTempo
          (Dataset.Tensor [Dataset.Note [[7; 0]; [0; 0]]%Z])
          (Dataset.Tensor [Dataset.Tempo 7%Q])).
Proof. reflexivity. Qed.

(** A negative batch size makes [__len__] negative, and [len] refuses it
    before the range check is reached. *)
Example negative_batch_size :
  Dataset.__getitem__ (Dataset.Make (-1) (Dataset.data Scenario.dataset) (Some 7%Z)) (-1)
  = Err ValueError.
Proof. reflexivity. Qed.

(** The constructor pads whatever list it finds under [lyrics], a nested
    one as well, and stops at a number. *)
Example init_pads_nested_list :
  Dataset.__init__ Scenario.cfg
    (Dataset.Shared [("lyrics", [Dataset.Note [[1]; [2]]%Z])]) 3 9
  = Ok (Dataset.Make 3
          (Dataset.Shared
             [("lyrics",
               [Dataset.VList [Dataset.VList [Dataset.VInt 1];
                               Dataset.VList [Dataset.VInt 2];
                               Dataset.VInt 9]])])
          (Some 1%Z)).
Proof. reflexivity. Qed.

Example init_number_under_lyrics :
  Dataset.__init__ Scenario.cfg
    (Dataset.Shared [("lyrics", [Dataset.Tempo 1%Q])]) 3 0
  = Err TypeError.
Proof. reflexivity. Qed.

(** Under [note], an empty list becomes the zero matrix, and a list of
    numbers stops the constructor. *)
Example init_empty_note :
  Dataset.__init__ Scenario.cfg
    (Dataset.Shared [("note", [Dataset.Lyrics []])]) 3 0
  = Ok (Dataset.Make 3
          (Dataset.Shared [("note", [Dataset.Note [[0; 0]; [0; 0]]%Z])])
          (Some 1%Z)).
Proof. reflexivity. Qed.

(** A matrix is cut to its first [Ci] channels before the channels are
    looked at: what comes after them need not be a list. *)
Example init_cuts_before_number :
  Dataset.__init__ Scenario.cfg
    (Dataset.Shared
       [("note", [Dataset.VList [Dataset.VList [Dataset.VInt 1];
                                 Dataset.VList [Dataset.VInt 2];
                                 Dataset.VInt 5]])]) 3 0
  = Ok (Dataset.Make 3
          (Dataset.Shared [("note", [Dataset.Note [[1; 0]; [2; 0]]%Z])])
          (Some 1%Z)).
Proof. reflexivity. Qed.

Example init_numbers_under_note :
  Dataset.__init__ Scenario.cfg
    (Dataset.Shared [("note", [Dataset.Lyrics [1]%Z])]) 3 0
  = Err TypeError.
Proof. reflexivity. Qed.

(** [vec2midi] at tempo zero, and with a feature map that names [track]. *)
Example vec2midi_tempo_zero :
  Decoder.vec2midi Scenario.cfg Scenario.id2Note ([[1%Z]], 0%Q)
  = Err ZeroDivisionError.
Proof. reflexivity. Qed.

Example vec2midi_track_keyword :
  Decoder.vec2midi
    (Config 2 2 (("track", 1%Z) :: music_feat2id Scenario.cfg) 3 1%Q)
    Scenario.id2Note ([[1%Z]], 1%Q)
  = Err TypeError.
Proof. reflexivity. Qed.

(** The shuffle of the scenario moves whole records. *)
Example scenario_shuffle :
  Dataset.data (Dataset.shuffle Scenario.rng Scenario.dataset).1
  = Dataset.Distinct
      [("lyrics", (λ n, Dataset.Lyrics [n; 0; 0]%Z) <$> [7; 5; 4; 6; 1; 3; 2]%Z)]
      [("note", (λ n, Dataset.Note [[n; 0]; [0; 0]]%Z) <$> [7; 5; 4; 6; 1; 3; 2]%Z);
       ("tempo", (λ n, Dataset.Tempo (inject_Z n)) <$> [7; 5; 4; 6; 1; 3; 2]%Z)].
Proof. vm_compute. reflexivity. Qed.
(** ** Normaliser: lemmas *)

Section normalizer_facts.
Context (cfg : config).

Lemma padLyrics1_length {A} (pv : A) lyr :
  length (padLyrics1 cfg pv lyr) = lyrics_L cfg.
Proof.
  unfold padLyrics1. case_decide.
  - rewrite length_app, length_replicate. lia.
  - rewrite length_take. lia.
Qed.

Lemma padLyrics1_long {A} (pv : A) lyr :
  lyrics_L cfg ≤ length lyr → padLyrics1 cfg pv lyr = take (lyrics_L cfg) lyr.
Proof. intros ?. unfold padLyrics1. case_decide; [lia | done]. Qed.

Lemma padLyrics1_short {A} (pv : A) lyr :
  length lyr < lyrics_L cfg →
  padLyrics1 cfg pv lyr = lyr ++ replicate (lyrics_L cfg - length lyr) pv.
Proof. intros ?. unfold padLyrics1. case_decide; [done | lia]. Qed.

Lemma padTrack_length track : length (padTrack cfg track) = music_L cfg.
Proof.
  unfold padTrack. case_decide.
  - rewrite length_app, length_replicate. lia.
  - rewrite length_take. lia.
Qed.

Lemma padTrack_spec track :
  padTrack cfg track
  = take (music_L cfg) track ++ replicate (music_L cfg - length track) 0%Z.
Proof.
  unfold padTrack. case_decide.
  - by rewrite take_ge by lia.
  - replace (music_L cfg - length track) with 0 by lia.
    simpl. by rewrite app_nil_r.
Qed.

Lemma padNote1_spec note :
  padNote1 cfg note
  = (padTrack cfg <$> take (music_Ci cfg) note)
    ++ replicate (music_Ci cfg - length note) (replicate (music_L cfg) 0%Z).
Proof.
  unfold padNote1. case_decide.
  - rewrite length_take. do 2 f_equal. lia.
  - by rewrite take_ge by lia.
Qed.

Lemma padNote1_length note : length (padNote1 cfg note) = music_Ci cfg.
Proof.
  rewrite padNote1_spec, length_app, length_fmap, length_take, length_replicate.
  lia.
Qed.

Lemma padNote1_tracks note track :
  track ∈ padNote1 cfg note → length track = music_L cfg.
Proof.
  rewrite padNote1_spec, elem_of_app. intros [H | H].
  - apply list_elem_of_fmap in H as (t & -> & _). apply padTrack_length.
  - apply elem_of_replicate in H as [-> _]. apply length_replicate.
Qed.

End normalizer_facts.

(** ** Normaliser: boundary, idempotence and shape *)

(** C8. [normalizeLyrics(seq, padValue)] is the first [L_lyr] elements of
    [seq] when [len(seq) >= L_lyr], and otherwise [seq] followed by
    [L_lyr - len(seq)] copies of [padValue]; it is defined for every input
    length.  At the boundary: a sequence of exactly [L_lyr] elements is
    returned unchanged, one of [L_lyr + 1] elements loses its last element,
    and one of [L_lyr - 1] elements gains exactly one [padValue]. *)
Theorem C8_padLyrics_spec {A} (cfg : config) (pv : A) :
  (∀ seq, lyrics_L cfg ≤ length seq →
          padLyrics1 cfg pv seq = take (lyrics_L cfg) seq)
  ∧ (∀ seq, length seq < lyrics_L cfg →
            padLyrics1 cfg pv seq
            = seq ++ replicate (lyrics_L cfg - length seq) pv)
  ∧ (∀ seq, length seq = lyrics_L cfg → padLyrics1 cfg pv seq = seq)
  ∧ (∀ seq x, length (seq ++ [x]) = lyrics_L cfg + 1 →
              padLyrics1 cfg pv (seq ++ [x]) = seq)
  ∧ (∀ seq, length seq + 1 = lyrics_L cfg →
            padLyrics1 cfg pv seq = seq ++ [pv]).
Proof.
  split_and!.
  - apply padLyrics1_long.
  - apply padLyrics1_short.
  - intros seq Hlen. rewrite padLyrics1_long by lia. apply take_ge. lia.
  - intros seq x Hlen. rewrite length_app in Hlen. simpl in Hlen.
    rewrite padLyrics1_long by (rewrite length_app; simpl; lia).
    rewrite take_app_le by lia. apply take_ge. lia.
  - intros seq Hlen. rewrite padLyrics1_short by lia.
    by replace (lyrics_L cfg - length seq) with 1 by lia.
Qed.

(** C9. Lyric normalisation is idempotent for a fixed pad value. *)
Theorem C9_padLyrics_idempotent {A} (cfg : config) (pv : A) (x : list A) :
  padLyrics1 cfg pv (padLyrics1 cfg pv x) = padLyrics1 cfg pv x.
Proof.
  rewrite (padLyrics1_long cfg pv (padLyrics1 cfg pv x))
    by (rewrite padLyrics1_length; lia).
  apply take_ge. rewrite padLyrics1_length. lia.
Qed.

(** C5. For every note matrix, [normalizeNote] returns exactly [Ci] channels
    of exactly [L_note] events each.  Channels beyond the first [Ci] are
    dropped; a kept channel is cut to its first [L_note] events or padded on
    the right with zeros; missing channels are appended as all-zero channels;
    the empty matrix gives [Ci] all-zero channels. *)
Theorem C5_padNote_shape (cfg : config) (note : list (list Z)) :
  let Ci := music_Ci cfg in
  let L := music_L cfg in
  length (padNote1 cfg note) = Ci
  ∧ (∀ track, track ∈ padNote1 cfg note → length track = L)
  ∧ (∀ c track, c < Ci → note !! c = Some track →
       padNote1 cfg note !! c
       = Some (take L track ++ replicate (L - length track) 0%Z))
  ∧ (∀ c, length note ≤ c → c < Ci →
       padNote1 cfg note !! c = Some (replicate L 0%Z))
  ∧ padNote1 cfg [] = replicate Ci (replicate L 0%Z).
Proof.
  intros Ci L. split_and!.
  - apply padNote1_length.
  - apply padNote1_tracks.
  - intros c track Hc Hnote. rewrite padNote1_spec.
    rewrite lookup_app_l
      by (rewrite length_fmap, length_take;
          apply lookup_lt_Some in Hnote; subst Ci; lia).
    rewrite list_lookup_fmap, lookup_take_lt by done. rewrite Hnote. simpl.
    by rewrite padTrack_spec.
  - intros c Hge Hc. rewrite padNote1_spec.
    rewrite lookup_app_r; rewrite length_fmap, length_take; [| lia].
    apply lookup_replicate_2. subst Ci. lia.
  - rewrite padNote1_spec, take_nil. simpl. by rewrite Nat.sub_0_r.
Qed.

(** ** Batch count and batch retrieval *)

Section batching_facts.
Import Dataset Spec.
Local Open Scope Z_scope.

Lemma ceil_div_pos n b : 0 < b → ceil_div n b = (n + b - 1) `div` b.
Proof.
  intros Hb. unfold ceil_div, Qceiling.
  destruct b as [|p|p]; try lia.
  unfold Qdiv, Qinv, inject_Z, Qmult, Qopp, Qfloor. simpl.
  rewrite Z.mul_1_r, Pos.mul_1_l.
  apply Z.opp_inj. rewrite Z.opp_involutive. symmetry.
  pose proof (Z.div_mod (n + Z.pos p - 1) (Z.pos p) ltac:(lia)) as Hdm.
  pose proof (Z.mod_pos_bound (n + Z.pos p - 1) (Z.pos p) ltac:(lia)) as Hr.
  apply (Z.div_unique _ _ _ (Z.pos p - 1 - (n + Z.pos p - 1) `mod` Z.pos p)).
  - left. lia.
  - lia.
Qed.

Lemma len_eq self size :
  Dataset.size self = Some size → 0 ≤ size → 1 ≤ bs self →
  __len__ self = Ok ((size + bs self - 1) `div` bs self)
  ∧ len self = Ok ((size + bs self - 1) `div` bs self).
Proof.
  intros Hsize Hn Hbs.
  assert (__len__ self = Ok ((size + bs self - 1) `div` bs self)) as Hlen.
  { unfold __len__, get_size. rewrite Hsize. simpl.
    case_decide; [lia | done]. }
  split; [done |]. unfold len. rewrite Hlen. simpl.
  case_decide as Hneg; [| done].
  pose proof (Z.div_pos (size + bs self - 1) (bs self)). lia.
Qed.



Lemma bounds_no_IndexError self i a b : bounds self i ≠ Err (IndexError a b).
Proof. unfold bounds, get_size. by destruct (size self). Qed.

Lemma batch_of_no_IndexError data begin end_ a b :
  batch_of data begin end_ ≠ Err (IndexError a b).
Proof.
  unfold batch_of, dict_item.
  destruct (dict_in "lyrics" data), (dict_in "note" data);
    repeat (destruct (dict_get _ data); simpl); done.
Qed.

(** What one bundle contributes to the pair. *)
Lemma batch_of_result data begin end_ :
  batch_of data begin end_
  = match dict_get "note" data with
    | Some note =>
        match dict_get "tempo" data with
        | Some tempo =>
            Ok (BNoteTempo (Tensor (slice note begin end_))
                           (Tensor (slice tempo begin end_)))
        | None => Err (KeyError "tempo")
        end
    | None =>
        match dict_get "lyrics" data with
        | Some lyrics => Ok (BLyrics (Tensor (slice lyrics begin end_)))
        | None => Ok BNone
        end
    end.
Proof.
  unfold batch_of, dict_in, dict_item.
  destruct (dict_get "lyrics" data) as [lyrics |] eqn:Hl;
    destruct (dict_get "note" data) as [note |] eqn:Hn;
    destruct (dict_get "tempo" data) as [tempo |] eqn:Ht;
    rewrite ?bool_decide_eq_true_2 by eauto;
    rewrite ?bool_decide_eq_false_2 by (by intros [? ?]);
    done.
Qed.

(** Past the range check, [__getitem__] is the slicing of both bundles at
    the bounds of [bounds]. *)
Lemma getitem_in_range self i n :
  len self = Ok n → i < n →
  __getitem__ self i
  = ('(begin, end_) ← bounds self i;
     b_inp ← batch_of (inp self) begin end_;
     b_tar ← batch_of (tar self) begin end_;
     Ok (b_inp, b_tar)).
Proof.
  intros Hlen Hi. unfold __getitem__. rewrite Hlen. simpl.
  case_decide; [lia | done].
Qed.

Lemma getitem_out_of_range self i n :
  len self = Ok n → n ≤ i → __getitem__ self i = Err (IndexError i (n - 1)).
Proof.
  intros Hlen Hi. unfold __getitem__. rewrite Hlen. simpl.
  case_decide; [done | lia].
Qed.

Lemma getitem_IndexError self i a b :
  __getitem__ self i = Err (IndexError a b)
  ↔ ∃ n, len self = Ok n ∧ n ≤ i ∧ a = i ∧ b = n - 1.
Proof.
  split.
  - destruct (len self) as [n | e] eqn:Hlen.
    + destruct (decide (n ≤ i)) as [Hi | Hi].
      * rewrite (getitem_out_of_range _ _ _ Hlen Hi). intros [= <- <-]. eauto.
      * rewrite (getitem_in_range _ _ _ Hlen) by lia.
        pose proof (bounds_no_IndexError self i a b) as Hb.
        destruct (bounds self i) as [[begin end_] | e]; simpl;
          [| intros [= ->]; congruence].
        pose proof (batch_of_no_IndexError (inp self) begin end_ a b) as H1.
        pose proof (batch_of_no_IndexError (tar self) begin end_ a b) as H2.
        destruct (batch_of (inp self) begin end_); simpl;
          [| intros [= ->]; congruence].
        destruct (batch_of (tar self) begin end_); simpl;
          [done | intros [= ->]; congruence].
    + unfold __getitem__. rewrite Hlen. simpl. intros He.
      assert (e = IndexError a b) as Hei by congruence. clear He. subst e.
      exfalso. unfold len in Hlen. destruct (__len__ self) as [m | e'] eqn:Hm.
      * simpl in Hlen. by case_decide.
      * simpl in Hlen. injection Hlen as ->. unfold __len__, get_size in Hm.
        destruct (size self); simpl in Hm; [by case_decide | done].
  - intros (n & Hlen & Hi & -> & ->). by apply getitem_out_of_range.
Qed.

End batching_facts.

(** C7. For a dataset with [size >= 0] and [batchSize >= 1], the length
    [__len__] (and so [len(dataset)]) is [ceil(size / batchSize)]; with
    [batchSize = 3] and [size = 7] it is [3]. *)
Theorem C7_len_is_ceil (self : Dataset.t) (size : Z) :
  Dataset.size self = Some size → (0 ≤ size)%Z → (1 ≤ Dataset.bs self)%Z →
  Dataset.__len__ self = Ok (Spec.ceil_div size (Dataset.bs self))
  ∧ Dataset.len self = Ok (Spec.ceil_div size (Dataset.bs self))
  ∧ (Dataset.bs self = 3%Z → size = 7%Z → Dataset.len self = Ok 3%Z).
Proof.
  intros Hsize Hn Hbs. rewrite ceil_div_pos by lia.
  destruct (len_eq self size Hsize Hn Hbs) as [H1 H2].
  split_and!; [done | done |].
  intros Hb ->. rewrite H2, Hb. done.
Qed.

Lemma C7_len_is_ceil_witness :
  Dataset.size Scenario.dataset = Some 7%Z
  ∧ Dataset.__len__ Scenario.dataset = Ok (Spec.ceil_div 7 3)
  ∧ Dataset.len Scenario.dataset = Ok 3%Z.
Proof.
  destruct (C7_len_is_ceil Scenario.dataset 7 eq_refl
              ltac:(by vm_compute) ltac:(by vm_compute)) as (Hlen & _ & Hex).
  split; [reflexivity |]. split; [exact Hlen | exact (Hex eq_refl eq_refl)].
Defined.

(** C6. Batch retrieval by index [i] fails with the out-of-range error
    exactly when [i >= batchCount], and the error carries [i] and
    [batchCount - 1]; with [batchSize = 3] and [size = 7], index [3] raises
    it. *)
Theorem C6_getitem_out_of_range (self : Dataset.t) (i : Z) :
  (∀ a b, Dataset.__getitem__ self i = Err (IndexError a b)
          ↔ ∃ batchCount, Dataset.len self = Ok batchCount
                          ∧ (batchCount ≤ i)%Z ∧ a = i ∧ b = (batchCount - 1)%Z)
  ∧ (Dataset.bs self = 3%Z → Dataset.size self = Some 7%Z →
     Dataset.len self = Ok 3%Z
     ∧ Dataset.__getitem__ self 3 = Err (IndexError 3 2)).
Proof.
  split.
  - intros a b. apply getitem_IndexError.
  - intros Hbs Hsize.
    destruct (len_eq self 7 Hsize ltac:(lia) ltac:(lia)) as [_ Hlen].
    rewrite Hbs in Hlen. change ((7 + 3 - 1) `div` 3)%Z with 3%Z in Hlen.
    split; [done |].
    by rewrite (getitem_out_of_range self 3 3 Hlen ltac:(lia)).
Qed.

(** ** Slices and the coverage of a column by its batches *)

Section slice_facts.
Context {A : Type}.
Implicit Types l : list A.






End slice_facts.

Section coverage.
Import Dataset Spec.

Context (self : t) (col : column).
Hypothesis Hbs : (1 ≤ bs self)%Z.
Hypothesis Hsize : size self = Some (Z.of_nat (length col)).

Let k := Z.to_nat (bs self).
Let n := length col.










End coverage.

Section getitem_columns.
Import Dataset Spec Batch.




End getitem_columns.



(** ** Negative indices *)

Section negative_index.
Import Dataset Spec.
Local Open Scope Z_scope.



End negative_index.



(** ** The decoder *)

Section dict_facts.
Context {V : Type}.
Implicit Types d : dict V.

Lemma dict_get_set_eq k v d : dict_get k (dict_set k v d) = Some v.
Proof.
  induction d as [| [k' v'] d IH]; simpl.
  - by rewrite decide_True.
  - destruct (decide (k' = k)) as [-> | Hne]; simpl.
    + by rewrite decide_True.
    + by rewrite decide_False.
Qed.

Lemma dict_get_set_ne k k' v d :
  k ≠ k' → dict_get k' (dict_set k v d) = dict_get k' d.
Proof.
  intros Hne. induction d as [| [k0 v0] d IH]; simpl.
  - by rewrite decide_False.
  - destruct (decide (k0 = k)) as [-> | Hne0]; simpl.
    + by rewrite !decide_False.
    + by rewrite IH.
Qed.

Lemma dict_keys_set_elem k k' v d :
  k' ∈ dict_keys (dict_set k v d) ↔ k' = k ∨ k' ∈ dict_keys d.
Proof.
  unfold dict_keys. induction d as [| [k0 v0] d IH]; simpl.
  - rewrite list_elem_of_singleton, elem_of_nil. tauto.
  - destruct (decide (k0 = k)) as [-> | Hne]; simpl.
    + rewrite !elem_of_cons. tauto.
    + rewrite !elem_of_cons, IH. tauto.
Qed.

End dict_facts.

(** Whether [addNote] binds depends on the set of keywords only. *)
Lemma accepts_true keywords :
  Midi.accepts keywords = true
  ↔ (∀ k, k ∈ keywords → k ∈ Midi.addNote_keywords)
    ∧ (∀ k, k ∈ Midi.addNote_required → k ∈ keywords).
Proof.
  unfold Midi.accepts. rewrite andb_true_iff, !forallb_forall.
  split; intros [H1 H2]; split; intros k Hk.
  - apply list_elem_of_In, H1 in Hk. by apply bool_decide_eq_true in Hk.
  - apply list_elem_of_In, H2 in Hk. by apply bool_decide_eq_true in Hk.
  - apply bool_decide_eq_true, H1. by apply list_elem_of_In.
  - apply bool_decide_eq_true, H2. by apply list_elem_of_In.
Qed.

Lemma accepts_ext keywords keywords' :
  (∀ k, k ∈ keywords ↔ k ∈ keywords') →
  Midi.accepts keywords = Midi.accepts keywords'.
Proof.
  intros Hext. apply eq_true_iff_eq. rewrite !accepts_true.
  split; intros [H1 H2]; split; intros k Hk.
  - apply H1. by apply Hext.
  - apply Hext. by apply H2.
  - apply H1. by apply Hext.
  - apply Hext. by apply H2.
Qed.

Lemma addTempo_Ok track time tempo midi midi' :
  Midi.addTempo track time tempo midi = Ok midi'
  ↔ ¬ (tempo == 0)%Q
    ∧ midi' = Midi.Make (Midi.tempo_events midi ++ [(track, time, tempo)])
                        (Midi.tracks midi).
Proof.
  unfold Midi.addTempo. destruct (Qeq_bool tempo 0) eqn:Hz.
  - apply Qeq_bool_iff in Hz. split; [intros [=] | by intros [? _]].
  - apply Qeq_bool_neq in Hz. split.
    + by intros [= <-].
    + by intros [_ ->].
Qed.

Lemma foldM_cons {A B} (f : A → B → result A) a x l :
  foldM f a (x :: l) = f a x ≫= λ a', foldM f a' l.
Proof. done. Qed.

Section decoder_facts.
Import Midi Decoder Spec.
Local Open Scope Z_scope.

Context (cfg : config) (id2Note : Z → raw_note).

Local Abbreviation step := (add_note_emb cfg id2Note).
Local Abbreviation decodes := (decodes cfg id2Note).
Local Abbreviation binds := (accepts (dict_keys (music_feat2id cfg)) = true).

(** The remapped note has the feature names of [feat2id] as its keys. *)
Lemma remap_loop_keys (raw : raw_note) l : ∀ acc d,
  foldM (λ (d : dict Z) '(feat, id), v ← raw_item raw id; Ok (dict_set feat v d))
        acc l = Ok d →
  ∀ k, k ∈ dict_keys d ↔ k ∈ dict_keys acc ∨ k ∈ dict_keys l.
Proof.
  induction l as [| [feat id] l IH]; intros acc d.
  - intros [= <-] k. unfold dict_keys at 3. simpl. rewrite elem_of_nil. tauto.
  - rewrite foldM_cons. destruct (raw_item raw id) as [v |]; simpl; [| intros [=]].
    intros Hd k. rewrite (IH _ _ Hd), dict_keys_set_elem.
    unfold dict_keys at 4. simpl. rewrite elem_of_cons. tauto.
Qed.

Lemma remap_keys (raw : raw_note) note :
  remap cfg raw = Ok note →
  ∀ k, k ∈ dict_keys note ↔ k ∈ dict_keys (music_feat2id cfg).
Proof.
  intros Hnote k. rewrite (remap_loop_keys _ _ _ _ Hnote).
  unfold dict_keys at 1. simpl. rewrite elem_of_nil. tauto.
Qed.

Lemma accepts_remapped (raw : raw_note) note t t' :
  remap cfg raw = Ok note → dict_get "time" note = Some t →
  accepts (dict_keys (dict_set "time" t' note))
  = accepts (dict_keys (music_feat2id cfg)).
Proof.
  intros Hnote Ht. apply accepts_ext. intros k.
  rewrite dict_keys_set_elem, <- (remap_keys _ _ Hnote). split; [| by right].
  intros [-> | Hk]; [| done].
  unfold dict_keys. apply list_elem_of_fmap.
  clear Hnote. induction note as [| [k0 v0] note IH]; simpl in *; [done |].
  case_decide.
  - exists (k0, v0). split; [done | left].
  - destruct (IH Ht) as (kv & Hkv & Hin). exists kv. split; [done | by right].
Qed.

(** One embedding: the step succeeds exactly when the embedding decodes to
    a note with a [time], the call of [addNote] binds and the track exists,
    and it then appends one event. *)
Lemma add_note_emb_Ok c time midi note_emb st :
  step c (time, midi) note_emb = Ok st
  ↔ ∃ note t events,
      remap cfg (id2Note note_emb) = Ok note
      ∧ dict_get "time" note = Some t
      ∧ binds
      ∧ tracks midi !! c = Some events
      ∧ st = (t + time,
              Midi.Make (tempo_events midi)
                (<[c := events ++ [NoteEvent c c (dict_set "time" (t + time) note)]]>
                   (tracks midi))).
Proof.
  unfold add_note_emb, dict_item, addNote.
  destruct (remap cfg (id2Note note_emb)) as [note | e] eqn:Hnote; simpl;
    [| split; [intros [=] | intros (? & ? & ? & [=] & _)]].
  destruct (dict_get "time" note) as [t |] eqn:Ht; simpl;
    [| split; [intros [=] | intros (? & ? & ? & [= <-] & ? & _); congruence]].
  rewrite (accepts_remapped _ _ _ _ Hnote Ht).
  destruct (accepts (dict_keys (music_feat2id cfg))) eqn:Hbinds; simpl;
    [| split; [intros [=] | intros (? & ? & ? & _ & _ & [=] & _)]].
  destruct (tracks midi !! c) as [events |] eqn:Hc; simpl;
    [| split; [intros [=] | intros (? & ? & ? & _ & _ & _ & [=] & _)]].
  split.
  - intros [= <-]. by eexists _, _, _.
  - intros (? & ? & ? & [= <-] & Ht' & _ & [= <-] & ->).
    rewrite Ht in Ht'. by injection Ht' as <-.
Qed.

(** The loop over one channel leaves the tempo events alone and appends
    the decoded events to track [c]; it needs the track only when there is
    an embedding to decode. *)
Lemma channel_loop_Ok c embs : ∀ time midi st,
  foldM (step c) (time, midi) embs = Ok st →
  ∃ new,
    decodes c time embs new
    ∧ tempo_events st.2 = tempo_events midi
    ∧ tracks st.2 = alter (λ events, events ++ new) c (tracks midi)
    ∧ (new = [] ∨ ((c < length (tracks midi))%nat ∧ binds)).
Proof.
  induction embs as [| emb embs IH]; intros time midi st.
  - intros [= <-]. exists []. split_and!; [constructor | done | | by left].
    simpl. symmetry. apply list_alter_id. intros. apply app_nil_r.
  - rewrite foldM_cons.
    destruct (step c (time, midi) emb) as [st1 |] eqn:Hstep; simpl;
      [| intros [=]].
    apply add_note_emb_Ok in Hstep
      as (note & t & events & Hnote & Ht & Hbinds & Hc & ->).
    intros (new & Hnew & Htempo & Htracks & _)%IH. simpl in *.
    assert (c < length (tracks midi))%nat by (by eapply lookup_lt_Some).
    exists (NoteEvent c c (dict_set "time" (t + time) note) :: new).
    split; [by constructor |]. split; [done |]. split; [| by right].
    rewrite Htracks. apply list_eq. intros j.
    destruct (decide (j = c)) as [-> | Hne].
    + rewrite !list_lookup_alter_eq, list_lookup_insert_eq by done.
      rewrite Hc. simpl. by rewrite <- app_assoc.
    + by rewrite !list_lookup_alter_ne, list_lookup_insert_ne by done.
Qed.

Lemma channel_loop_decodes c embs : ∀ time midi new,
  binds →
  decodes c time embs new →
  (c < length (tracks midi))%nat →
  ∃ time', foldM (step c) (time, midi) embs
    = Ok (time', Midi.Make (tempo_events midi)
                   (alter (λ events, events ++ new) c (tracks midi))).
Proof.
  induction embs as [| emb embs IH]; intros time midi new Hbinds Hdec Hc.
  - inversion Hdec; subst. exists time. simpl. destruct midi as [te tr].
    simpl. do 3 f_equal. symmetry. apply list_alter_id. intros. apply app_nil_r.
  - inversion Hdec as [| ? ? ? note t events Hnote Ht Hrest]; subst.
    destruct (lookup_lt_is_Some_2 _ _ Hc) as [evs Hevs].
    rewrite foldM_cons.
    rewrite (proj2 (add_note_emb_Ok c time midi emb _)
               (ex_intro _ note (ex_intro _ t (ex_intro _ evs
                  (conj Hnote (conj Ht (conj Hbinds (conj Hevs eq_refl)))))))).
    simpl.
    edestruct (IH (t + time) (Midi.Make (tempo_events midi)
              (<[c := evs ++ [NoteEvent c c (dict_set "time" (t + time) note)]]>
                 (tracks midi))) events Hbinds Hrest) as [time' ->].
    { simpl. by rewrite length_insert. }
    exists time'. simpl. do 3 f_equal. apply list_eq. intros j.
    destruct (decide (j = c)) as [-> | Hne].
    + rewrite !list_lookup_alter_eq, list_lookup_insert_eq by done.
      rewrite Hevs. simpl. by rewrite <- app_assoc.
    + by rewrite !list_lookup_alter_ne, list_lookup_insert_ne by done.
Qed.


Lemma decodes_functional c embs : ∀ time new1 new2,
  decodes c time embs new1 → decodes c time embs new2 → new1 = new2.
Proof.
  induction embs as [| emb embs IH]; intros time new1 new2 H1 H2.
  - by inversion H1; inversion H2.
  - inversion H1 as [| ? ? ? note1 t1 ev1 Hn1 Ht1 Hr1]; subst.
    inversion H2 as [| ? ? ? note2 t2 ev2 Hn2 Ht2 Hr2]; subst.
    rewrite Hn1 in Hn2. injection Hn2 as <-.
    rewrite Ht1 in Ht2. injection Ht2 as <-.
    f_equal. by eapply IH.
Qed.

Lemma decodes_total c embs : ∀ time,
  Forall (λ emb, is_Some (decoded_time cfg id2Note emb)) embs →
  ∃ new, decodes c time embs new.
Proof.
  induction embs as [| emb embs IH]; intros time Hall.
  - exists []. constructor.
  - apply Forall_cons in Hall as [[t Ht] Hall]. unfold decoded_time in Ht.
    destruct (remap cfg (id2Note emb)) as [note |] eqn:Hnote; [| done].
    destruct (IH (t + time) Hall) as [new Hnew].
    eexists. by econstructor.
Qed.

(** The onsets of the decoded events are the running sums of the decoded
    [time] fields. *)
Lemma decodes_onsets c embs : ∀ time new,
  decodes c time embs new →
  ∃ deltas,
    Forall2 (λ emb d, decoded_time cfg id2Note emb = Some d) embs deltas
    ∧ onset <$> new = Some <$> running_sums time deltas.
Proof.
  induction embs as [| emb embs IH]; intros time new Hdec.
  - inversion Hdec; subst. exists []. by split; [constructor |].
  - inversion Hdec as [| ? ? ? note t events Hnote Ht Hrest]; subst.
    destruct (IH _ _ Hrest) as (deltas & Hall & Hons).
    exists (t :: deltas). split.
    + constructor; [| done]. unfold decoded_time. by rewrite Hnote.
    + simpl. unfold onset at 1. simpl. rewrite dict_get_set_eq. by f_equal.
Qed.



Local Abbreviation channel_step := (add_channel cfg id2Note).

Lemma add_channel_eq midi c embs :
  channel_step midi (c, embs)
  = foldM (step c) (0, midi) embs ≫= λ st, Ok st.2.
Proof. done. Qed.

(** The loop over the channels from index [k] on: tracks below [k] are left
    alone, and track [k + i] gains the events decoded from channel [i]. *)
Lemma channels_loop_Ok l : ∀ k midi midi',
  foldM channel_step midi (enumerate k l) = Ok midi' →
  tempo_events midi' = tempo_events midi
  ∧ length (tracks midi') = length (tracks midi)
  ∧ (∀ c, (c < k)%nat → tracks midi' !! c = tracks midi !! c)
  ∧ (∀ i embs, l !! i = Some embs →
       ∃ new, decodes (k + i) 0 embs new
              ∧ track midi' (k + i) = track midi (k + i) ++ new).
Proof.
  induction l as [| embs l IH]; intros k midi midi'.
  - intros [= <-]. by split_and!.
  - change (enumerate k (embs :: l)) with ((k, embs) :: enumerate (S k) l).
    rewrite foldM_cons, add_channel_eq.
    destruct (foldM (step k) (0, midi) embs) as [st |] eqn:Hloop; simpl;
      [| intros [=]].
    apply channel_loop_Ok in Hloop as (new & Hnew & Htempo & Htracks & Hk).
    intros (Htempo' & Hlen' & Hbelow & Hnewer)%IH.
    assert (∀ c, c ≠ k → tracks st.2 !! c = tracks midi !! c) as Hother.
    { intros c Hne. by rewrite Htracks, list_lookup_alter_ne. }
    split_and!.
    + congruence.
    + by rewrite Hlen', Htracks, length_alter.
    + intros c Hc. rewrite Hbelow by lia. apply Hother. lia.
    + intros [| i] embs'; simpl.
      * intros [= <-]. exists new. rewrite Nat.add_0_r. split; [done |].
        unfold track. rewrite Hbelow, Htracks, list_lookup_alter_eq by lia.
        destruct (tracks midi !! k) as [events |] eqn:Hev; simpl; [done |].
        destruct Hk as [-> | [Hk _]]; [done |].
        apply lookup_ge_None in Hev. lia.
      * intros Hi. destruct (Hnewer i embs' Hi) as (new' & Hdec & Htrack).
        replace (k + S i)%nat with (S k + i)%nat by lia.
        exists new'. split; [done |]. rewrite Htrack. f_equal.
        unfold track. rewrite Hother by lia. done.
Qed.

Lemma channels_loop_decodes l : ∀ k midi,
  binds →
  (k + length l ≤ length (tracks midi))%nat →
  Forall (Forall (λ emb, is_Some (decoded_time cfg id2Note emb))) l →
  ∃ midi', foldM channel_step midi (enumerate k l) = Ok midi'.
Proof.
  induction l as [| embs l IH]; intros k midi Hbinds Hlen Hall; [by eexists |].
  apply Forall_cons in Hall as [Hembs Hall]. simpl in Hlen.
  change (enumerate k (embs :: l)) with ((k, embs) :: enumerate (S k) l).
  rewrite foldM_cons, add_channel_eq.
  destruct (decodes_total k embs 0 Hembs) as [new Hnew].
  destruct (channel_loop_decodes k embs 0 midi new Hbinds Hnew ltac:(lia))
    as [time' ->].
  simpl. apply IH; [done | | done]. simpl. rewrite length_alter. lia.
Qed.

Lemma vec2midi_eq notes tempo :
  vec2midi cfg id2Note (notes, tempo)
  = if Qeq_bool (tempo * tempo_default cfg) 0 then Err ZeroDivisionError
    else foldM channel_step (started cfg tempo) (enumerate 0 notes).
Proof.
  unfold vec2midi, addTempo, started, create. simpl.
  by destruct (Qeq_bool (tempo * tempo_default cfg) 0).
Qed.

Lemma vec2midi_loop notes tempo midi :
  vec2midi cfg id2Note (notes, tempo) = Ok midi →
  ¬ (tempo * tempo_default cfg == 0)%Q
  ∧ foldM channel_step (started cfg tempo) (enumerate 0 notes) = Ok midi.
Proof.
  rewrite vec2midi_eq.
  destruct (Qeq_bool (tempo * tempo_default cfg) 0) eqn:Hz; [intros [=] |].
  by apply Qeq_bool_neq in Hz.
Qed.

Lemma track_started (c : nat) (tempo : Q) : track (started cfg tempo) c = [].
Proof.
  unfold track, started. simpl.
  destruct (decide (c < music_Ci cfg)%nat).
  - by rewrite lookup_replicate_2.
  - by rewrite (proj1 (lookup_replicate_None _ _ _)) by lia.
Qed.

(** [vec2midi], when it returns: track [c] holds the events decoded from
    channel [c], from the accumulator [0]. *)
Lemma vec2midi_Ok notes tempo midi :
  vec2midi cfg id2Note (notes, tempo) = Ok midi →
  ∀ c embs, notes !! c = Some embs →
    ∃ new, decodes c 0 embs new ∧ track midi c = new.
Proof.
  intros [_ (_ & _ & _ & Hnew)%channels_loop_Ok]%vec2midi_loop c embs Hc.
  destruct (Hnew c embs Hc) as (new & Hdec & Htrack).
  simpl in Hdec, Htrack. exists new. split; [done |].
  by rewrite Htrack, track_started.
Qed.

(** [vec2midi] returns when the tempo is not zero, the feature names are
    keywords that [addNote] binds, no channel is beyond the [Ci] tracks and
    every embedding decodes to a note with a [time]. *)
Lemma vec2midi_returns notes tempo :
  ¬ (tempo * tempo_default cfg == 0)%Q →
  binds →
  (length notes ≤ music_Ci cfg)%nat →
  Forall (Forall (λ emb, is_Some (decoded_time cfg id2Note emb))) notes →
  ∃ midi, vec2midi cfg id2Note (notes, tempo) = Ok midi.
Proof.
  intros Htempo Hbinds Hlen Hall. rewrite vec2midi_eq.
  destruct (Qeq_bool (tempo * tempo_default cfg) 0) eqn:Hz.
  { by apply Qeq_bool_iff in Hz. }
  apply channels_loop_decodes; [done | | done].
  simpl. rewrite length_replicate. lia.
Qed.

End decoder_facts.



(** ** The padded scenario *)

(** In the scenario the embedding [1] resolves to a note with [time = 10]
    and [pitch = 60]. *)
Example scenario_e1_resolves :
  Decoder.remap Scenario.cfg (Scenario.id2Note 1)
  = Ok [("time", 10%Z); ("pitch", 60%Z); ("duration", 1%Z); ("volume", 100%Z)].
Proof. reflexivity. Qed.

(** With a feature map that names [time] and [pitch] only, the first call
    of [addNote] lacks [duration] and [volume], and no score is returned. *)
Example scenario_time_pitch_only :
  Decoder.vec2midi Scenario.cfg_time_pitch Scenario.id2Note
    (padNote1 Scenario.cfg_time_pitch [[1%Z]], 1%Q)
  = Err TypeError.
Proof. reflexivity. Qed.

(** C3, as the scenario states it, does not hold of the code: with [Ci = 2]
    and [L_note = 2], a feature map of the keywords [addNote] asks for, and
    [e1 = 1] resolving to a note with [time = 10] and [pitch = 60], the
    normalised matrix is [[e1, 0], [0, 0]], but the score decoded from it
    does not have exactly one event in track 0 and none in track 1: the
    padded slots are decoded as well. *)
Lemma C3_counterexample :
  padNote1 Scenario.cfg [[1%Z]] = [[1; 0]; [0; 0]]%Z
  ∧ ¬ (∃ midi,
         Decoder.vec2midi Scenario.cfg Scenario.id2Note
           (padNote1 Scenario.cfg [[1%Z]], 1%Q) = Ok midi
         ∧ (∃ ev, Midi.track midi 0 = [ev] ∧ Midi.onset ev = Some 10%Z)
         ∧ Midi.track midi 1 = []).
Proof.
  split; [reflexivity |].
  intros (midi & Hmidi & _ & Htrack1).
  vm_compute in Hmidi. injection Hmidi as <-.
  vm_compute in Htrack1. discriminate Htrack1.
Qed.

(** C3 (amended).  With [Ci = 2] and [L_note = 2], the note matrix [[e1]] is
    normalised to [[e1, 0], [0, 0]].  When the tempo is not zero, the
    feature names are keywords that [addNote] binds, [e1] resolves to a
    note with [time = 10] and [pitch = 60] and the pad [0] resolves to a
    note with [time = t0], decoding the normalised matrix returns a score
    with one event for each slot, the padded ones included: track 0 holds
    the event of [e1] at onset [10] and then the pad's at onset [t0 + 10];
    track 1 holds two pad events, at onsets [t0] and [t0 + t0]. *)
Theorem C3_padded_scenario (cfg : config) (id2Note : Z → Decoder.raw_note)
    (e1 t0 : Z) (note1 pad : dict Z) (tempo : Q) :
  music_Ci cfg = 2 → music_L cfg = 2 →
  ¬ (tempo * tempo_default cfg == 0)%Q →
  Midi.accepts (dict_keys (music_feat2id cfg)) = true →
  Decoder.remap cfg (id2Note e1) = Ok note1 →
  dict_get "time" note1 = Some 10%Z →
  dict_get "pitch" note1 = Some 60%Z →
  Decoder.remap cfg (id2Note 0%Z) = Ok pad →
  dict_get "time" pad = Some t0 →
  padNote1 cfg [[e1]] = [[e1; 0]; [0; 0]]%Z
  ∧ ∃ midi,
      Decoder.vec2midi cfg id2Note (padNote1 cfg [[e1]], tempo) = Ok midi
      ∧ Midi.track midi 0
        = [Midi.NoteEvent 0 0 (dict_set "time" 10%Z note1);
           Midi.NoteEvent 0 0 (dict_set "time" (t0 + 10)%Z pad)]
      ∧ Midi.track midi 1
        = [Midi.NoteEvent 1 1 (dict_set "time" t0 pad);
           Midi.NoteEvent 1 1 (dict_set "time" (t0 + t0)%Z pad)]
      ∧ Midi.onset <$> Midi.track midi 0 = [Some 10; Some (t0 + 10)]%Z
      ∧ Midi.onset <$> Midi.track midi 1 = [Some t0; Some (t0 + t0)]%Z
      ∧ (∃ ev, Midi.track midi 0 !! 0 = Some ev
               ∧ Midi.onset ev = Some 10%Z
               ∧ dict_get "pitch" (Midi.ev_note ev) = Some 60%Z).
Proof.
  intros HCi HL Htempo Hbinds Hnote1 Htime1 Hpitch1 Hpad Htime0.
  assert (padNote1 cfg [[e1]] = [[e1; 0]; [0; 0]]%Z) as Hnorm.
  { unfold padNote1, padTrack. rewrite HCi, HL. reflexivity. }
  split; [done |]. rewrite Hnorm.
  assert (is_Some (Spec.decoded_time cfg id2Note e1)) as He1.
  { unfold Spec.decoded_time. rewrite Hnote1. eauto. }
  assert (is_Some (Spec.decoded_time cfg id2Note 0%Z)) as He0.
  { unfold Spec.decoded_time. rewrite Hpad. eauto. }
  destruct (vec2midi_returns cfg id2Note [[e1; 0]; [0; 0]]%Z tempo Htempo Hbinds)
    as [midi Hmidi].
  { rewrite HCi. simpl. lia. }
  { repeat constructor; done. }
  exists midi. split; [done |].
  destruct (vec2midi_Ok _ _ _ _ _ Hmidi 0 [e1; 0%Z] eq_refl) as (new0 & Hdec0 & Ht0).
  destruct (vec2midi_Ok _ _ _ _ _ Hmidi 1 [0%Z; 0%Z] eq_refl) as (new1 & Hdec1 & Ht1).
  assert (Spec.decodes cfg id2Note 0 0 [e1; 0%Z]
            [Midi.NoteEvent 0 0 (dict_set "time" (10 + 0)%Z note1);
             Midi.NoteEvent 0 0 (dict_set "time" (t0 + (10 + 0))%Z pad)]) as Hexp0
    by (repeat (econstructor; [eassumption | eassumption |]); constructor).
  assert (Spec.decodes cfg id2Note 1 0 [0%Z; 0%Z]
            [Midi.NoteEvent 1 1 (dict_set "time" (t0 + 0)%Z pad);
             Midi.NoteEvent 1 1 (dict_set "time" (t0 + (t0 + 0))%Z pad)]) as Hexp1
    by (repeat (econstructor; [eassumption | eassumption |]); constructor).
  rewrite Z.add_0_r in Hexp0, Hexp1.
  rewrite Ht0, (decodes_functional _ _ _ _ _ _ _ Hdec0 Hexp0).
  rewrite Ht1, (decodes_functional _ _ _ _ _ _ _ Hdec1 Hexp1).
  unfold Midi.onset. simpl. rewrite !dict_get_set_eq.
  split_and!; try done.
  eexists. split; [done |]. simpl. rewrite dict_get_set_eq.
  split; [done |]. by rewrite dict_get_set_ne.
Qed.

Lemma C3_padded_scenario_witness :
  padNote1 Scenario.cfg [[1%Z]] = [[1; 0]; [0; 0]]%Z
  ∧ ∃ midi,
      Decoder.vec2midi Scenario.cfg Scenario.id2Note
        (padNote1 Scenario.cfg [[1%Z]], 1%Q) = Ok midi
      ∧ Midi.onset <$> Midi.track midi 0 = [Some 10; Some 10]%Z
      ∧ Midi.onset <$> Midi.track midi 1 = [Some 0; Some 0]%Z.
Proof.
  destruct (C3_padded_scenario Scenario.cfg Scenario.id2Note 1 0
              [("time", 10%Z); ("pitch", 60%Z); ("duration", 1%Z); ("volume", 100%Z)]
              [("time", 0%Z); ("pitch", 0%Z); ("duration", 0%Z); ("volume", 0%Z)]
              1%Q eq_refl eq_refl
              ltac:(intros H; vm_compute in H; discriminate H)
              eq_refl eq_refl eq_refl eq_refl eq_refl eq_refl)
    as (Hnorm & midi & Hmidi & _ & _ & Hons0 & Hons1 & _).
  split; [exact Hnorm |]. exists midi.
  split; [exact Hmidi |]. split; [exact Hons0 | exact Hons1].
Defined.

(** ** [random.shuffle] permutes, and does not look at the elements *)

Section shuffle_facts.
Import Random.

Lemma swap_fmap {A B} (f : A → B) (x : list A) i j :
  swap (f <$> x) i j = f <$> swap x i j.
Proof.
  unfold swap. rewrite !list_lookup_fmap.
  destruct (x !! i), (x !! j); simpl; try done.
  by rewrite !list_fmap_insert.
Qed.

Lemma swap_Permutation {A} (x : list A) i j : swap x i j ≡ₚ x.
Proof.
  unfold swap.
  destruct (x !! i) as [xi |] eqn:Hi; [| done].
  destruct (x !! j) as [xj |] eqn:Hj; [| done].
  pose proof (lookup_lt_Some _ _ _ Hi). pose proof (lookup_lt_Some _ _ _ Hj).
  apply Permutation_inj. split; [by rewrite !length_insert |].
  exists (λ p, if decide (p = j) then i else if decide (p = i) then j else p).
  split.
  - intros p q. repeat case_decide; lia.
  - intros p. destruct (decide (p = j)) as [-> | Hpj].
    + by rewrite list_lookup_insert_eq by (by rewrite length_insert).
    + rewrite list_lookup_insert_ne by done.
      destruct (decide (p = i)) as [-> | Hpi].
      * by rewrite list_lookup_insert_eq.
      * by rewrite list_lookup_insert_ne.
Qed.

Lemma shuffle_from_fmap {A B} (f : A → B) i : ∀ g (x : list A),
  shuffle_from i g (f <$> x)
  = ((f <$> (shuffle_from i g x).1), (shuffle_from i g x).2).
Proof.
  induction i as [| i IH]; intros g x; [done |].
  simpl. by rewrite swap_fmap, IH.
Qed.

Lemma shuffle_from_Permutation {A} i : ∀ g (x : list A),
  (shuffle_from i g x).1 ≡ₚ x.
Proof.
  induction i as [| i IH]; intros g x; [done |].
  simpl. rewrite IH. apply swap_Permutation.
Qed.

Lemma shuffle_fmap {A B} (f : A → B) g (x : list A) :
  shuffle g (f <$> x) = ((f <$> (shuffle g x).1), (shuffle g x).2).
Proof. unfold shuffle. by rewrite length_fmap, shuffle_from_fmap. Qed.

Lemma shuffle_Permutation {A} g (x : list A) : (shuffle g x).1 ≡ₚ x.
Proof. apply shuffle_from_Permutation. Qed.

End shuffle_facts.

(** ** [zip] of unpacked columns is transposition *)

Section zip_star_facts.
Context {A : Type}.

(** The matrix with entry [f x y] in row [x] and column [y], given by its
    rows, has the columns of the same entries. *)
Lemma zip_star_fmap {X Y} (f : X → Y → A) (xs : list X) (ys : list Y) :
  xs ≠ [] →
  zip_star ((λ x, f x <$> ys) <$> xs) = (λ y, (λ x, f x y) <$> xs) <$> ys.
Proof.
  induction xs as [| x xs IH]; [done |]. intros _.
  destruct xs as [| x' xs].
  - simpl. rewrite <- list_fmap_compose. done.
  - change (zip_star ((λ x, f x <$> ys) <$> x :: x' :: xs))
      with (zip_with cons (f x <$> ys)
              (zip_star ((λ x, f x <$> ys) <$> x' :: xs))).
    rewrite IH by done.
    rewrite zip_with_fmap_l, zip_with_fmap_r, zip_with_diag. done.
Qed.

Lemma list_as_lookups `{Inhabited A} (l : list A) :
  l = (λ j, l !!! j) <$> seq 0 (length l).
Proof.
  apply list_eq. intros i. rewrite list_lookup_fmap.
  destruct (decide (i < length l)) as [Hi | Hi].
  - rewrite lookup_seq_lt by done. simpl.
    by apply list_lookup_lookup_total_lt.
  - rewrite lookup_seq_ge by lia. simpl. apply lookup_ge_None. lia.
Qed.

(** Columns of one length [n], zipped: row [j] holds entry [j] of every
    column. *)
Lemma zip_star_columns `{Inhabited A} (cols : list (list A)) n :
  cols ≠ [] → Forall (λ col, length col = n) cols →
  zip_star cols = (λ j, (λ col, col !!! j) <$> cols) <$> seq 0 n.
Proof.
  intros Hne Hlen.
  rewrite <- (zip_star_fmap (λ col j, col !!! j)) by done.
  f_equal. apply list_eq. intros i. rewrite list_lookup_fmap.
  destruct (cols !! i) as [col |] eqn:Hcol; simpl; [| done].
  f_equal. rewrite Forall_lookup in Hlen. rewrite <- (Hlen _ _ Hcol).
  apply list_as_lookups.
Qed.

End zip_star_facts.

(** ** Assigning columns back to a bundle *)

Section assign_facts.
Context {V : Type}.
Implicit Types d pre : dict V.

Lemma dict_set_app_notin k v pre d :
  k ∉ dict_keys pre → dict_set k v (pre ++ d) = pre ++ dict_set k v d.
Proof.
  induction pre as [| [k' v'] pre IH]; [done |]. simpl.
  rewrite not_elem_of_cons. intros [Hne Hnotin].
  rewrite decide_False by done. by rewrite IH.
Qed.

(** [for k, v in zip(d, vs): d[k] = v] over the keys of [d] itself puts the
    values [vs] under the keys of [d], in order. *)
Lemma foldl_dict_set d : ∀ pre vs,
  NoDup (dict_keys (pre ++ d)) → length vs = length d →
  foldl (λ d '(k, v), dict_set k v d) (pre ++ d) (zip (dict_keys d) vs)
  = pre ++ zip (dict_keys d) vs.
Proof.
  induction d as [| [k v0] d IH]; intros pre vs Hnodup Hlen.
  - by destruct vs.
  - destruct vs as [| v vs]; [done |]. simpl in Hlen.
    unfold dict_keys in *. rewrite fmap_app in Hnodup. simpl in *.
    assert (k ∉ fst <$> pre) as Hpre.
    { apply NoDup_app in Hnodup as (_ & Hdisj & _).
      intros Hin. apply (Hdisj _ Hin). left. }
    rewrite dict_set_app_notin by done. simpl. rewrite decide_True by done.
    specialize (IH (pre ++ [(k, v)]) vs).
    rewrite <- !app_assoc in IH. simpl in IH. apply IH; [| lia].
    rewrite fmap_app. simpl. done.
Qed.

Lemma zip_keys_values (f : V → V) d :
  zip (dict_keys d) (f <$> dict_values d) = prod_map id f <$> d.
Proof.
  unfold dict_keys, dict_values.
  induction d as [| [k v] d IH]; [done |]. simpl. by f_equal.
Qed.

Lemma dict_keys_fmap (f : V → V) d :
  dict_keys (prod_map id f <$> d) = dict_keys d.
Proof.
  unfold dict_keys. induction d as [| [k v] d IH]; [done |].
  simpl. by f_equal.
Qed.

End assign_facts.

Section dataset_assign.
Import Dataset.

Lemma foldl_set_item s kvs : ∀ self,
  let F := foldl (λ d '(k, v), dict_set k v d) in
  foldl (λ self '(k, v), set_item s k v self) self kvs
  = Make (bs self)
      (match data self, s with
       | Distinct inp tar, Inp => Distinct (F inp kvs) tar
       | Distinct inp tar, Tar => Distinct inp (F tar kvs)
       | Shared both, _ => Shared (F both kvs)
       end)
      (size self).
Proof.
  induction kvs as [| [k v] kvs IH]; intros self F.
  - destruct self as [b [i t | both] sz], s; done.
  - simpl. rewrite IH. destruct self as [b [i t | both] sz], s; done.
Qed.

(** The loop [for k, v in zip(d, cols): d[k] = v] of [shuffle], with one
    column for each key. *)
Lemma assign_columns s cols self :
  NoDup (dict_keys (get s self)) → length cols = length (get s self) →
  assign s cols self
  = Make (bs self)
      (match data self, s with
       | Distinct inp tar, Inp => Distinct (zip (dict_keys inp) cols) tar
       | Distinct inp tar, Tar => Distinct inp (zip (dict_keys tar) cols)
       | Shared both, _ => Shared (zip (dict_keys both) cols)
       end)
      (size self).
Proof.
  intros Hnodup Hlen. unfold assign. rewrite foldl_set_item.
  pose proof (foldl_dict_set (get s self) [] cols Hnodup Hlen) as Hset.
  simpl in Hset. unfold get in *.
  destruct self as [b [i t | both] sz], s; simpl in *; by rewrite Hset.
Qed.

Lemma assign_nil s self : assign s [] self = self.
Proof.
  unfold assign. rewrite foldl_set_item.
  assert (zip (dict_keys (get s self)) (@nil column) = []) as ->
    by by destruct (dict_keys (get s self)).
  by destruct self as [b [i t | both] sz], s.
Qed.

End dataset_assign.

(** ** The synchronised shuffle *)

Section shuffle_dataset.
Import Dataset Spec.

Lemma reindex_lookup {A} `{Inhabited A} (σ : list nat) (col : list A) k j :
  σ !! k = Some j → j < length col → reindex σ col !! k = col !! j.
Proof.
  intros Hk Hj. unfold reindex. rewrite list_lookup_fmap, Hk. simpl.
  symmetry. by apply list_lookup_lookup_total_lt.
Qed.

Lemma reindex_nil_columns (d : bundle) :
  Forall (λ col, length col = 0) (dict_values d) →
  prod_map id (reindex []) <$> d = d.
Proof.
  unfold dict_values. induction d as [| [k col] d IH]; [done |].
  rewrite fmap_cons. intros [Hcol Hd]%Forall_cons. rewrite fmap_cons, IH by done.
  simpl in Hcol. apply nil_length_inv in Hcol as ->. done.
Qed.

(** What [shuffle] leaves in the instance: every column of both bundles read
    at the indices [σ] that [random.shuffle] draws for [0 .. n-1]. *)
Lemma shuffle_columns (g : Random.rng) (self : t) (n : nat) :
  NoDup (dict_keys (inp self)) →
  NoDup (dict_keys (tar self)) →
  Forall (λ col, length col = n)
         (dict_values (inp self) ++ dict_values (tar self)) →
  let σ := (Random.shuffle g (seq 0 n)).1 in
  (shuffle g self).1
  = Make (bs self)
      (match data self with
       | Distinct inp tar =>
           Distinct (prod_map id (reindex σ) <$> inp)
                    (prod_map id (reindex σ) <$> tar)
       | Shared both => Shared (prod_map id (reindex σ) <$> both)
       end)
      (size self).
Proof.
  intros Hinp Htar Hlen σ. unfold shuffle.
  set (cols := dict_values (inp self) ++ dict_values (tar self)) in *.
  destruct (decide (cols = [])) as [Hnil | Hne].
  - rewrite Hnil. simpl. rewrite !take_nil, !drop_nil, !assign_nil.
    apply app_eq_nil in Hnil as [Hi Ht].
    apply fmap_nil_inv in Hi, Ht. unfold inp, tar, get in *.
    destruct self as [b [i t | both] sz]; simpl in *; by subst.
  - rewrite (zip_star_columns cols n Hne Hlen).
    rewrite shuffle_fmap. fold σ. simpl.
    destruct (decide (σ = [])) as [Hσ | Hσ].
    + assert (n = 0) as ->.
      { pose proof (shuffle_Permutation g (seq 0 n)) as Hperm.
        fold σ in Hperm. rewrite Hσ in Hperm.
        apply Permutation_nil_l in Hperm. by destruct n. }
      rewrite Hσ. simpl. rewrite !take_nil, !drop_nil, !assign_nil.
      apply Forall_app in Hlen as [Hi Ht]. unfold inp, tar, get in *.
      destruct self as [b [i t | both] sz]; simpl in *;
        by rewrite !reindex_nil_columns.
    + rewrite (zip_star_fmap (λ j (col : column), col !!! j) σ cols Hσ).
      change (λ y : column, (λ x, y !!! x) <$> σ) with (@reindex entry _ σ).
      subst cols. rewrite fmap_app.
      assert (length (reindex σ <$> dict_values (inp self)) = length (inp self))
        as Hli by (unfold dict_values; by rewrite !length_fmap).
      assert (length (reindex σ <$> dict_values (tar self)) = length (tar self))
        as Hlt by (unfold dict_values; by rewrite !length_fmap).
      rewrite take_app_length' by done.
      rewrite (assign_columns Inp) by done.
      unfold inp, tar, get in *.
      destruct self as [b [i t | both] sz]; simpl in *.
      * rewrite zip_keys_values.
        replace (length (prod_map id (reindex σ) <$> i))
          with (length (reindex σ <$> dict_values i))
          by (rewrite Hli; symmetry; apply length_fmap).
        rewrite drop_app_length.
        rewrite (assign_columns Tar); simpl;
          [by rewrite zip_keys_values | done | by unfold get].
      * rewrite zip_keys_values.
        replace (length (prod_map id (reindex σ) <$> both))
          with (length (reindex σ <$> dict_values both))
          by (rewrite Hli; symmetry; apply length_fmap).
        rewrite drop_app_length.
        pose proof (dict_keys_fmap (reindex σ) both) as Hkeys.
        rewrite (assign_columns Tar); simpl.
        -- by rewrite Hkeys, zip_keys_values.
        -- unfold get. simpl. by rewrite Hkeys.
        -- unfold get. simpl. by rewrite Hli, length_fmap.
Qed.

End shuffle_dataset.

(** C1. On a dataset whose columns, in [inp] and [tar] together, all have
    one length [n] (and whose dicts, as dicts do, have distinct keys),
    [shuffle] applies one permutation [σ] of the indices
    [0 .. n-1] to every column of both bundles, whatever the state of the
    random generator: each column is replaced, under its key, by the column
    read at the indices [σ].  So for every position [k] there is one index
    [j = σ[k]] such that every column holds at [k] after the shuffle what it
    held at [j] before; the entries themselves are not changed, and neither
    are the batch size and the size. *)
Theorem C1_shuffle_synchronized (g : Random.rng) (self : Dataset.t) (n : nat) :
  NoDup (dict_keys (Dataset.inp self)) →
  NoDup (dict_keys (Dataset.tar self)) →
  Forall (λ col, length col = n)
         (dict_values (Dataset.inp self) ++ dict_values (Dataset.tar self)) →
  let self' := (Dataset.shuffle g self).1 in
  ∃ σ : list nat,
    σ ≡ₚ seq 0 n
    ∧ Dataset.inp self' = prod_map id (Spec.reindex σ) <$> Dataset.inp self
    ∧ Dataset.tar self' = prod_map id (Spec.reindex σ) <$> Dataset.tar self
    ∧ Dataset.bs self' = Dataset.bs self
    ∧ Dataset.size self' = Dataset.size self
    ∧ (∀ k, k < n →
         ∃ j, j < n ∧ σ !! k = Some j
              ∧ ∀ col, col ∈ dict_values (Dataset.inp self)
                               ++ dict_values (Dataset.tar self) →
                       Spec.reindex σ col !! k = col !! j).
Proof.
  intros Hinp Htar Hlen self'.
  pose proof (shuffle_columns g self n Hinp Htar Hlen) as Hshuffle.
  simpl in Hshuffle. fold self' in Hshuffle.
  set (σ := (Random.shuffle g (seq 0 n)).1) in *.
  assert (σ ≡ₚ seq 0 n) as Hperm by apply shuffle_Permutation.
  exists σ. rewrite Hshuffle. unfold Dataset.inp, Dataset.tar, Dataset.get.
  split; [done |].
  destruct self as [b [i t | both] sz]; simpl; (do 4 (split; [done |])).
  all: intros k Hk;
    destruct (lookup_lt_is_Some_2 σ k) as [j Hj];
    [by rewrite Hperm, length_seq |];
    assert (j < n) as Hjn
      by (apply list_elem_of_lookup_2 in Hj; rewrite Hperm in Hj;
          apply elem_of_seq in Hj; lia);
    exists j; split; [done |]; split; [done |];
    intros col Hcol; apply reindex_lookup; [done |];
    rewrite Forall_forall in Hlen; by rewrite (Hlen col Hcol).
Qed.

Lemma C1_shuffle_synchronized_witness :
  ∃ σ : list nat,
    σ ≡ₚ seq 0 7
    ∧ Dataset.inp (Dataset.shuffle Scenario.rng Scenario.dataset).1
      = prod_map id (Spec.reindex σ) <$> Dataset.inp Scenario.dataset
    ∧ Dataset.tar (Dataset.shuffle Scenario.rng Scenario.dataset).1
      = prod_map id (Spec.reindex σ) <$> Dataset.tar Scenario.dataset.
Proof.
  destruct (C1_shuffle_synchronized Scenario.rng Scenario.dataset 7
              ltac:(apply (bool_decide_unpack _); vm_compute; exact I)
              ltac:(apply (bool_decide_unpack _); vm_compute; exact I)
              ltac:(repeat constructor))
    as (σ & Hperm & Hinp & Htar & _).
  exists σ. split; [exact Hperm |]. split; [exact Hinp | exact Htar].
Defined.

(** ** The constructor normalises both bundles in place *)

Section dict_alter_facts.
Import Construct.
Context {V : Type}.
Implicit Types d : dict V.

Lemma dict_get_alter (f : V → V) k k' d :
  dict_get k' (dict_alter f k d)
  = if decide (k = k') then f <$> dict_get k d else dict_get k' d.
Proof.
  induction d as [| [k0 v0] d IH]; simpl; [by case_decide |].
  destruct (decide (k0 = k)) as [-> | Hne0]; simpl;
    destruct (decide (k = k')) as [-> | Hne]; simpl;
    rewrite ?decide_True, ?decide_False by done; try done.
  destruct (decide (k0 = k')); done.
Qed.

Lemma dict_keys_alter (f : V → V) k d :
  dict_keys (dict_alter f k d) = dict_keys d.
Proof.
  unfold dict_keys. induction d as [| [k0 v0] d IH]; simpl; [done |].
  case_decide; simpl; by f_equal.
Qed.

Lemma dict_set_alter (f : V → V) k d v :
  dict_get k d = Some v → dict_set k (f v) d = dict_alter f k d.
Proof.
  induction d as [| [k0 v0] d IH]; simpl; [done |].
  destruct (decide (k0 = k)) as [-> | Hne].
  - by intros [= ->].
  - intros Hget. by rewrite IH.
Qed.

Lemma dict_alter_None (f : V → V) k d :
  dict_get k d = None → dict_alter f k d = d.
Proof.
  induction d as [| [k0 v0] d IH]; simpl; [done |].
  destruct (decide (k0 = k)); [done |]. intros Hget. by rewrite IH.
Qed.

Lemma dict_alter_compose (f g : V → V) k d :
  dict_alter f k (dict_alter g k d) = dict_alter (f ∘ g) k d.
Proof.
  induction d as [| [k0 v0] d IH]; simpl; [done |].
  destruct (decide (k0 = k)) as [-> | Hne]; simpl.
  - by rewrite decide_True.
  - rewrite decide_False by done. by rewrite IH.
Qed.

Lemma dict_alter_commute (f g : V → V) k k' d :
  k ≠ k' →
  dict_alter f k (dict_alter g k' d) = dict_alter g k' (dict_alter f k d).
Proof.
  intros Hne. induction d as [| [k0 v0] d IH]; simpl; [done |].
  destruct (decide (k0 = k')) as [Heq' | Hne'];
    destruct (decide (k0 = k)) as [Heq | Hne0]; simpl;
    repeat case_decide; simplify_eq; try done.
  by rewrite IH.
Qed.

Lemma dict_alter_ext (f g : V → V) k d :
  (∀ v, dict_get k d = Some v → f v = g v) →
  dict_alter f k d = dict_alter g k d.
Proof.
  induction d as [| [k0 v0] d IH]; simpl; [done |].
  destruct (decide (k0 = k)) as [-> | Hne]; intros Hfg.
  - by rewrite Hfg.
  - by rewrite IH.
Qed.

Lemma dict_in_true k d : dict_in k d = true ↔ is_Some (dict_get k d).
Proof. unfold dict_in. apply bool_decide_eq_true. Qed.

Lemma dict_in_false k d : dict_in k d = false ↔ dict_get k d = None.
Proof.
  unfold dict_in. rewrite bool_decide_eq_false, <- eq_None_not_Some. done.
Qed.

End dict_alter_facts.

Section constructor_facts.
Import Dataset Construct.
Context (cfg : config).

Lemma padTrack_idempotent track :
  padTrack cfg (padTrack cfg track) = padTrack cfg track.
Proof.
  unfold padTrack at 1. rewrite decide_False by (rewrite padTrack_length; lia).
  apply take_ge. rewrite padTrack_length. lia.
Qed.

Lemma padNote1_idempotent note :
  padNote1 cfg (padNote1 cfg note) = padNote1 cfg note.
Proof.
  rewrite (padNote1_spec cfg (padNote1 cfg note)).
  rewrite padNote1_length, Nat.sub_diag, app_nil_r.
  rewrite take_ge by (rewrite padNote1_length; lia).
  rewrite padNote1_spec, fmap_app, fmap_replicate, <- list_fmap_compose.
  f_equal.
  - apply list_fmap_ext. intros _ track _. apply padTrack_idempotent.
  - f_equal. unfold padTrack.
    rewrite decide_False by (rewrite length_replicate; lia).
    apply take_ge. rewrite length_replicate. lia.
Qed.

Lemma mapM_Ok_fmap {A B} (f : A → result B) (g : A → B) (l : list A) :
  Forall (λ x, f x = Ok (g x)) l → mapM f l = Ok (g <$> l).
Proof.
  induction 1 as [| x l Hx Hl IH]; [done |].
  simpl. rewrite Hx. simpl. rewrite IH. done.
Qed.

Lemma mapM_Ok_inv {A B} (f : A → result B) (l : list A) (k : list B) :
  mapM f l = Ok k → Forall2 (λ x y, f x = Ok y) l k.
Proof.
  revert k. induction l as [| x l IH]; intros k; simpl.
  - intros [= <-]. constructor.
  - destruct (f x) as [y |] eqn:Hx; simpl; [| intros [=]].
    destruct (mapM f l) as [k' |]; simpl; [| intros [=]].
    intros [= <-]. constructor; [done |]. by apply IH.
Qed.

Lemma mapM_Err {A B} (ok : A → bool) (f : A → result B) (l : list A) :
  (∀ x, ok x = false → f x = Err TypeError) →
  (∀ x, ok x = true → ∃ y, f x = Ok y) →
  forallb ok l = false → mapM f l = Err TypeError.
Proof.
  intros Hfalse Htrue. induction l as [| x l IH]; simpl; [done |].
  destruct (ok x) eqn:Hx; simpl.
  - intros Hl. destruct (Htrue x Hx) as [y ->]. simpl. by rewrite IH.
  - intros _. by rewrite Hfalse.
Qed.

(** The inner [padLyrics] cuts or fills up. *)
Lemma padLyrics1_take {A} (pv : A) (lyr : list A) :
  padLyrics1 cfg pv lyr
  = take (lyrics_L cfg) lyr ++ replicate (lyrics_L cfg - length lyr) pv.
Proof.
  unfold padLyrics1. case_decide.
  - by rewrite take_ge by lia.
  - replace (lyrics_L cfg - length lyr) with 0 by lia. simpl.
    by rewrite app_nil_r.
Qed.

Lemma padTrack_take (track : list Z) :
  padTrack cfg track
  = take (music_L cfg) track ++ replicate (music_L cfg - length track) 0%Z.
Proof.
  unfold padTrack. case_decide.
  - by rewrite take_ge by lia.
  - replace (music_L cfg - length track) with 0 by lia. simpl.
    by rewrite app_nil_r.
Qed.

(** The normalisers on one entry: they raise on what is no list, and
    else cut and fill up. *)
Lemma padLyrics_entry pv (e : entry) :
  (lyr ← as_list e; Ok (VList (padLyrics1 cfg (VInt pv) lyr)))
  = if is_list e then Ok (norm_lyrics cfg pv e) else Err TypeError.
Proof. destruct e as [| | lyr]; simpl; [done | done |]. by rewrite padLyrics1_take. Qed.

Lemma padTrack_entry_eq (track : entry) :
  padTrack_entry cfg track
  = if is_list track then Ok (norm_track cfg track) else Err TypeError.
Proof.
  unfold padTrack_entry. destruct track as [| | track]; simpl; [done | done |].
  do 2 f_equal. case_decide.
  - by rewrite take_ge by lia.
  - replace (music_L cfg - length track) with 0 by lia. simpl.
    by rewrite app_nil_r.
Qed.

Lemma padNote_entry_eq (e : entry) :
  padNote_entry cfg e
  = if note_ok cfg e then Ok (norm_note cfg e) else Err TypeError.
Proof.
  unfold padNote_entry. destruct e as [| | note]; simpl; [done | done |].
  assert ((if decide (music_Ci cfg < length note)
           then take (music_Ci cfg) note else note)
          = take (music_Ci cfg) note) as ->.
  { case_decide; [done |]. by rewrite take_ge by lia. }
  destruct (forallb is_list (take (music_Ci cfg) note)) eqn:Hok.
  - rewrite (mapM_Ok_fmap _ (norm_track cfg)).
    2: { apply Is_true_true_2, forallb_True in Hok.
         eapply Forall_impl; [exact Hok |]. intros track Htrack.
         rewrite padTrack_entry_eq. by apply Is_true_true_1 in Htrack as ->. }
    cbn [mbind result_bind]. rewrite length_take.
    by replace (music_Ci cfg - music_Ci cfg `min` length note)
      with (music_Ci cfg - length note) by lia.
  - rewrite (mapM_Err is_list); [done | | | done].
    + intros track Htrack. by rewrite padTrack_entry_eq, Htrack.
    + intros track Htrack. rewrite padTrack_entry_eq, Htrack. eauto.
Qed.

Lemma padLyrics_accepted data pv col :
  dict_get "lyrics" data = Some col → forallb is_list col = true →
  padLyrics cfg data pv = Ok (norm_lyrics cfg pv <$> col).
Proof.
  intros Hget Hok. unfold padLyrics, dict_item. rewrite Hget. simpl.
  apply mapM_Ok_fmap. apply Is_true_true_2, forallb_True in Hok.
  eapply Forall_impl; [exact Hok |]. intros e He.
  rewrite padLyrics_entry. by apply Is_true_true_1 in He as ->.
Qed.

Lemma padNote_accepted data col :
  dict_get "note" data = Some col → forallb (note_ok cfg) col = true →
  padNote cfg data = Ok (norm_note cfg <$> col).
Proof.
  intros Hget Hok. unfold padNote, dict_item. rewrite Hget. simpl.
  apply mapM_Ok_fmap. apply Is_true_true_2, forallb_True in Hok.
  eapply Forall_impl; [exact Hok |]. intros e He.
  rewrite padNote_entry_eq. by apply Is_true_true_1 in He as ->.
Qed.

Lemma set_item_bundle s k v self :
  set_item s k v self = set_bundle s (dict_set k v (get s self)) self.
Proof. unfold set_item, set_bundle, get. by destruct (data self), s. Qed.

Lemma get_set_bundle s d self : get s (set_bundle s d self) = d.
Proof. unfold set_bundle, get. simpl. by destruct (data self), s. Qed.

Lemma set_bundle_twice s d d' self :
  set_bundle s d' (set_bundle s d self) = set_bundle s d' self.
Proof. unfold set_bundle. simpl. by destruct (data self), s. Qed.

Lemma counted_normalize pv data : counted (normalize cfg pv data) = counted data.
Proof.
  unfold counted, normalize. rewrite !dict_get_alter. simpl.
  destruct (dict_get "note" data); simpl; [by rewrite length_fmap |].
  destruct (dict_get "lyrics" data); simpl; [by rewrite length_fmap | done].
Qed.

Lemma lyrics_pass pv self s :
  match dict_get "lyrics" (get s self) with
  | Some col => forallb is_list col
  | None => true
  end = true →
  (if dict_in "lyrics" (get s self) then
     lyrics ← padLyrics cfg (get s self) pv;
     let self := set_item s "lyrics" lyrics self in
     col ← dict_item "lyrics" (get s self);
     Ok (set_size (Z.of_nat (length col)) self)
   else Ok self)
  = Ok (Make (bs self)
          (data (set_bundle s
                   (dict_alter (fmap (norm_lyrics cfg pv)) "lyrics" (get s self))
                   self))
          (match dict_get "lyrics" (get s self) with
           | Some col => Some (Z.of_nat (length col))
           | None => size self
           end)).
Proof.
  intros Htyped.
  destruct (dict_get "lyrics" (get s self)) as [col |] eqn:Hget.
  - rewrite (proj2 (dict_in_true _ _)) by (rewrite Hget; eauto).
    rewrite (padLyrics_accepted _ pv col Hget Htyped).
    rewrite <- (dict_set_alter (fmap (norm_lyrics cfg pv)) _ _ _ Hget).
    cbn [mbind result_bind].
    rewrite set_item_bundle, get_set_bundle.
    unfold dict_item. rewrite dict_get_set_eq. cbn [mbind result_bind].
    by rewrite length_fmap.
  - rewrite (proj2 (dict_in_false _ _)) by done.
    rewrite dict_alter_None by done.
    unfold set_bundle, get in *. by destruct self as [b [i t | both] sz], s.
Qed.

Lemma note_pass self s :
  match dict_get "note" (get s self) with
  | Some col => forallb (note_ok cfg) col
  | None => true
  end = true →
  (if dict_in "note" (get s self) then
     note ← padNote cfg (get s self);
     let self := set_item s "note" note self in
     col ← dict_item "note" (get s self);
     Ok (set_size (Z.of_nat (length col)) self)
   else Ok self)
  = Ok (Make (bs self)
          (data (set_bundle s
                   (dict_alter (fmap (norm_note cfg)) "note" (get s self))
                   self))
          (match dict_get "note" (get s self) with
           | Some col => Some (Z.of_nat (length col))
           | None => size self
           end)).
Proof.
  intros Htyped.
  destruct (dict_get "note" (get s self)) as [col |] eqn:Hget.
  - rewrite (proj2 (dict_in_true _ _)) by (rewrite Hget; eauto).
    rewrite (padNote_accepted _ col Hget Htyped).
    rewrite <- (dict_set_alter (fmap (norm_note cfg)) _ _ _ Hget).
    cbn [mbind result_bind].
    rewrite set_item_bundle, get_set_bundle.
    unfold dict_item. rewrite dict_get_set_eq. cbn [mbind result_bind].
    by rewrite length_fmap.
  - rewrite (proj2 (dict_in_false _ _)) by done.
    rewrite dict_alter_None by done.
    unfold set_bundle, get in *. by destruct self as [b [i t | both] sz], s.
Qed.

(** One pass of the constructor's loop over a bundle whose entries the
    normalisers can work on. *)
Lemma init_bundle_accepted pv self s :
  acceptable cfg (get s self) = true →
  init_bundle cfg pv self s
  = Ok (Make (bs self)
          (data (set_bundle s (normalize cfg pv (get s self)) self))
          (match counted (get s self) with
           | Some n => Some n
           | None => size self
           end)).
Proof.
  unfold acceptable. intros [Hlyr Hnote]%andb_prop.
  unfold init_bundle.
  pose proof (lyrics_pass pv self s Hlyr) as Hpass1.
  cbv zeta in Hpass1. rewrite Hpass1. clear Hpass1.
  cbn [mbind result_bind].
  set (self1 := Make _ _ _).
  assert (get s self1
          = dict_alter (fmap (norm_lyrics cfg pv)) "lyrics" (get s self)) as Hget1.
  { subst self1. unfold set_bundle, get. simpl. by destruct (data self), s. }
  pose proof (note_pass self1 s) as Hpass2.
  cbv zeta in Hpass2. rewrite Hpass2; clear Hpass2;
    rewrite Hget1, dict_get_alter; simpl; [| done].
  unfold normalize, counted. subst self1. unfold set_bundle. simpl.
  f_equal. f_equal.
  - by destruct (data self), s.
  - destruct (dict_get "note" (get s self)); [done |].
    by destruct (dict_get "lyrics" (get s self)).
Qed.

End constructor_facts.

Section constructor_results.
Import Dataset Construct.
Context (cfg : config).

Lemma norm_lyrics_twice pv pv' e :
  norm_lyrics cfg pv' (norm_lyrics cfg pv e) = norm_lyrics cfg pv e.
Proof.
  destruct e as [| | lyr]; simpl; [done | done |]. f_equal.
  assert (length (take (lyrics_L cfg) lyr
                  ++ replicate (lyrics_L cfg - length lyr) (VInt pv))
          = lyrics_L cfg) as Hlen
    by (rewrite length_app, length_take, length_replicate; lia).
  rewrite Hlen, Nat.sub_diag. simpl. rewrite app_nil_r.
  apply take_ge. lia.
Qed.

Lemma norm_track_twice track :
  norm_track cfg (norm_track cfg track) = norm_track cfg track.
Proof.
  destruct track as [| | track]; simpl; [done | done |]. f_equal.
  assert (length (take (music_L cfg) track
                  ++ replicate (music_L cfg - length track) (VInt 0))
          = music_L cfg) as Hlen
    by (rewrite length_app, length_take, length_replicate; lia).
  rewrite Hlen, Nat.sub_diag. simpl. rewrite app_nil_r.
  apply take_ge. lia.
Qed.

Lemma norm_note_twice e : norm_note cfg (norm_note cfg e) = norm_note cfg e.
Proof.
  destruct e as [| | note]; simpl; [done | done |]. f_equal.
  set (zero := VList (replicate (music_L cfg) (VInt 0))).
  assert (length ((norm_track cfg <$> take (music_Ci cfg) note)
                  ++ replicate (music_Ci cfg - length note) zero)
          = music_Ci cfg) as Hlen
    by (rewrite length_app, length_fmap, length_take, length_replicate; lia).
  rewrite Hlen, Nat.sub_diag. simpl. rewrite app_nil_r.
  rewrite take_ge by lia.
  rewrite fmap_app, fmap_replicate, <- list_fmap_compose. f_equal.
  - apply list_fmap_ext. intros _ track _. apply norm_track_twice.
  - f_equal. subst zero. simpl. f_equal.
    rewrite length_replicate, Nat.sub_diag. simpl. rewrite app_nil_r.
    apply take_ge. by rewrite length_replicate.
Qed.

Lemma normalize_twice pv pv' d :
  normalize cfg pv' (normalize cfg pv d) = normalize cfg pv d.
Proof.
  unfold normalize.
  rewrite (dict_alter_commute _ _ "lyrics" "note") by done.
  rewrite !dict_alter_compose.
  rewrite (dict_alter_ext (fmap (norm_note cfg) ∘ fmap (norm_note cfg))
             (fmap (norm_note cfg))).
  2: { intros col _. simpl. rewrite <- list_fmap_compose.
       apply list_fmap_ext. intros _ e _. apply norm_note_twice. }
  f_equal. apply dict_alter_ext. intros col _. simpl.
  rewrite <- list_fmap_compose. apply list_fmap_ext.
  intros _ e _. apply norm_lyrics_twice.
Qed.

Lemma dict_get_normalize pv k d :
  dict_get k (normalize cfg pv d) = normalized cfg pv k <$> dict_get k d.
Proof.
  unfold normalize, normalized. rewrite !dict_get_alter.
  destruct (decide ("note" = k)) as [<- | Hn]; simpl.
  - by destruct (dict_get "note" d).
  - destruct (decide ("lyrics" = k)) as [<- | Hl]; simpl.
    + by destruct (dict_get "lyrics" d).
    + destruct (dict_get k d); simpl; [| done].
      by rewrite !decide_False by done.
Qed.

Lemma dict_keys_normalize pv d :
  dict_keys (normalize cfg pv d) = dict_keys d.
Proof. unfold normalize. by rewrite !dict_keys_alter. Qed.

Lemma is_list_norm_lyrics pv e : is_list e = true → is_list (norm_lyrics cfg pv e) = true.
Proof. by destruct e. Qed.

Lemma is_list_norm_track track : is_list (norm_track cfg track) = is_list track.
Proof. by destruct track. Qed.

Lemma note_ok_norm_note e : note_ok cfg e = true → note_ok cfg (norm_note cfg e) = true.
Proof.
  destruct e as [| | note]; simpl; [done | done |]. intros Hok.
  apply Is_true_true_1, forallb_True, Forall_take, Forall_app. split.
  - apply Forall_fmap. apply Is_true_true_2, forallb_True in Hok.
    eapply Forall_impl; [exact Hok |]. intros track Htrack. simpl.
    by rewrite is_list_norm_track.
  - by apply Forall_replicate.
Qed.

Lemma acceptable_normalize pv d :
  acceptable cfg d = true → acceptable cfg (normalize cfg pv d) = true.
Proof.
  unfold acceptable. rewrite !dict_get_normalize. unfold normalized. simpl.
  intros [Hl Hn]%andb_prop. apply andb_true_intro. split.
  - destruct (dict_get "lyrics" d) as [col |]; simpl; [| done].
    apply Is_true_true_1, forallb_True, Forall_fmap.
    apply Is_true_true_2, forallb_True in Hl.
    eapply Forall_impl; [exact Hl |]. intros e He. simpl.
    by apply Is_true_true_2, is_list_norm_lyrics, Is_true_true_1.
  - destruct (dict_get "note" d) as [col |]; simpl; [| done].
    apply Is_true_true_1, forallb_True, Forall_fmap.
    apply Is_true_true_2, forallb_True in Hn.
    eapply Forall_impl; [exact Hn |]. intros e He. simpl.
    by apply Is_true_true_2, note_ok_norm_note, Is_true_true_1.
Qed.

(** Entries typed as the docstring has them are entries the normalisers
    can work on, and on them the normalisers are the two inner functions. *)
Lemma ints_fmap (l : list entry) :
  forallb is_int l = true → ∃ lyr, l = VInt <$> lyr.
Proof.
  induction l as [| v l IH]; simpl; [by exists [] |].
  intros [Hv Hl]%andb_prop. destruct (IH Hl) as [lyr ->].
  destruct v as [n | |]; try done. by exists (n :: lyr).
Qed.

Lemma is_lyrics_Lyrics e : is_lyrics e = true ↔ ∃ lyr, e = Lyrics lyr.
Proof.
  split.
  - destruct e as [| | l]; simpl; [done | done |].
    intros [lyr ->]%ints_fmap. by exists lyr.
  - intros [lyr ->]. simpl. apply Is_true_true_1, forallb_True, Forall_fmap.
    by apply Forall_true.
Qed.

Lemma is_note_Note e : is_note e = true ↔ ∃ note, e = Note note.
Proof.
  split.
  - destruct e as [| | l]; simpl; [done | done |]. intros Hl.
    assert (∃ note, l = (λ track, VList (VInt <$> track)) <$> note)
      as [note ->]; [| by exists note].
    induction l as [| v l IH]; simpl in *; [by exists [] |].
    apply andb_prop in Hl as [Hv Hl]. destruct (IH Hl) as [note ->].
    apply is_lyrics_Lyrics in Hv as [track ->]. by exists (track :: note).
  - intros [note ->]. simpl. apply Is_true_true_1, forallb_True, Forall_fmap.
    apply Forall_true. intros track. simpl.
    apply Is_true_true_2, (proj2 (is_lyrics_Lyrics (Lyrics track))). eauto.
Qed.

Lemma norm_lyrics_Lyrics pv lyr :
  norm_lyrics cfg pv (Lyrics lyr) = Lyrics (padLyrics1 cfg pv lyr).
Proof.
  unfold Lyrics. simpl. f_equal.
  rewrite padLyrics1_take, fmap_app, fmap_take, fmap_replicate.
  by rewrite length_fmap.
Qed.

Lemma norm_track_ints track :
  norm_track cfg (VList (VInt <$> track)) = VList (VInt <$> padTrack cfg track).
Proof.
  simpl. f_equal.
  rewrite padTrack_take, fmap_app, fmap_take, fmap_replicate.
  by rewrite length_fmap.
Qed.

Lemma norm_note_Note note :
  norm_note cfg (Note note) = Note (padNote1 cfg note).
Proof.
  unfold Note. simpl. f_equal.
  rewrite padNote1_spec, fmap_app, fmap_replicate, length_fmap.
  rewrite <- fmap_take, <- !list_fmap_compose. f_equal.
  - apply list_fmap_ext. intros _ track _. simpl.
    pose proof (norm_track_ints track) as Htrack. simpl in Htrack. exact Htrack.
  - by rewrite fmap_replicate.
Qed.

Lemma is_lyrics_is_list e : is_lyrics e = true → is_list e = true.
Proof. by destruct e. Qed.

Lemma is_note_note_ok e : is_note e = true → note_ok cfg e = true.
Proof.
  destruct e as [| | note]; simpl; [done | done |]. intros Hnote.
  apply Is_true_true_1, forallb_True, Forall_take.
  apply Is_true_true_2, forallb_True in Hnote.
  eapply Forall_impl; [exact Hnote |]. intros track Htrack.
  by apply Is_true_true_2, is_lyrics_is_list, Is_true_true_1.
Qed.

Lemma well_typed_acceptable d : well_typed d = true → acceptable cfg d = true.
Proof.
  unfold well_typed, acceptable. intros [Hl Hn]%andb_prop.
  apply andb_true_intro. split.
  - destruct (dict_get "lyrics" d) as [col |]; [| done].
    apply Is_true_true_1, forallb_True.
    apply Is_true_true_2, forallb_True in Hl.
    eapply Forall_impl; [exact Hl |]. intros e He.
    by apply Is_true_true_2, is_lyrics_is_list, Is_true_true_1.
  - destruct (dict_get "note" d) as [col |]; [| done].
    apply Is_true_true_1, forallb_True.
    apply Is_true_true_2, forallb_True in Hn.
    eapply Forall_impl; [exact Hn |]. intros e He.
    by apply Is_true_true_2, is_note_note_ok, Is_true_true_1.
Qed.

(** The constructor on bundles the normalisers can work on: both bundles
    normalised, one shared dict normalised as a whole, and the size
    counted from [tar] when it has a [note] or [lyrics] column, else from
    [inp]. *)
Lemma init_accepted data batch_size pv :
  let self0 := Make batch_size data None in
  acceptable cfg (inp self0) = true → acceptable cfg (tar self0) = true →
  __init__ cfg data batch_size pv
  = Ok (Make batch_size
          (match data with
           | Distinct i t => Distinct (normalize cfg pv i) (normalize cfg pv t)
           | Shared b => Shared (normalize cfg pv b)
           end)
          (match counted (tar self0) with
           | Some n => Some n
           | None => counted (inp self0)
           end)).
Proof.
  intros self0 Hinp Htar. unfold __init__. fold self0.
  rewrite foldM_cons, (init_bundle_accepted cfg pv self0 Inp Hinp).
  cbn [mbind result_bind].
  set (self1 := Make _ _ _).
  destruct data as [i t | b]; subst self0 self1;
    unfold inp, tar, get, set_bundle in *; simpl in *.
  - rewrite init_bundle_accepted by done.
    simpl. unfold get, set_bundle. simpl.
    do 2 f_equal. by destruct (counted t), (counted i).
  - rewrite init_bundle_accepted by (by apply acceptable_normalize).
    simpl. unfold get, set_bundle. simpl.
    rewrite normalize_twice, counted_normalize.
    do 2 f_equal. by destruct (counted b).
Qed.

Lemma init_typed data batch_size pv :
  let self0 := Make batch_size data None in
  well_typed (inp self0) = true → well_typed (tar self0) = true →
  __init__ cfg data batch_size pv
  = Ok (Make batch_size
          (match data with
           | Distinct i t => Distinct (normalize cfg pv i) (normalize cfg pv t)
           | Shared b => Shared (normalize cfg pv b)
           end)
          (match counted (tar self0) with
           | Some n => Some n
           | None => counted (inp self0)
           end)).
Proof.
  intros self0 Hinp Htar. by apply init_accepted; apply well_typed_acceptable.
Qed.

(** A bundle with an entry the normalisers cannot work on stops the
    constructor. *)
Lemma init_bundle_unacceptable pv self s :
  acceptable cfg (get s self) = false → init_bundle cfg pv self s = Err TypeError.
Proof.
  unfold acceptable. intros Hok. unfold init_bundle.
  destruct (match dict_get "lyrics" (get s self) with
            | Some col => forallb is_list col
            | None => true
            end) eqn:Hlyr.
  - simpl in Hok.
    pose proof (lyrics_pass cfg pv self s Hlyr) as Hpass.
    cbv zeta in Hpass. rewrite Hpass. clear Hpass. cbn [mbind result_bind].
    set (self1 := Make _ _ _).
    assert (get s self1
            = dict_alter (fmap (norm_lyrics cfg pv)) "lyrics" (get s self)) as Hget1.
    { subst self1. unfold set_bundle, get. simpl. by destruct (data self), s. }
    assert (dict_get "note" (get s self1) = dict_get "note" (get s self)) as Hnote
      by (by rewrite Hget1, dict_get_alter).
    destruct (dict_get "note" (get s self)) as [col |] eqn:Hcol; [| done].
    rewrite (proj2 (dict_in_true _ _)) by (rewrite Hnote; eauto).
    unfold padNote, dict_item. rewrite Hnote. cbn [mbind result_bind].
    rewrite (mapM_Err (note_ok cfg)); [done | | | done].
    + intros e He. by rewrite padNote_entry_eq, He.
    + intros e He. rewrite padNote_entry_eq, He. eauto.
  - destruct (dict_get "lyrics" (get s self)) as [col |] eqn:Hcol; [| done].
    rewrite (proj2 (dict_in_true _ _)) by (rewrite Hcol; eauto).
    unfold padLyrics, dict_item. rewrite Hcol. cbn [mbind result_bind].
    rewrite (mapM_Err is_list); [done | | | done].
    + intros e He. by rewrite padLyrics_entry, He.
    + intros e He. rewrite padLyrics_entry, He. eauto.
Qed.

(** The constructor returns exactly on bundles the normalisers can work
    on. *)
Lemma init_Ok_acceptable data batch_size pv self :
  __init__ cfg data batch_size pv = Ok self →
  let self0 := Make batch_size data None in
  acceptable cfg (inp self0) = true ∧ acceptable cfg (tar self0) = true.
Proof.
  intros Hinit self0. unfold __init__ in Hinit. fold self0 in Hinit.
  rewrite foldM_cons in Hinit.
  destruct (acceptable cfg (inp self0)) eqn:Hinp.
  2: { by rewrite (init_bundle_unacceptable pv self0 Inp Hinp) in Hinit. }
  split; [done |].
  rewrite (init_bundle_accepted cfg pv self0 Inp Hinp) in Hinit.
  cbn [mbind result_bind] in Hinit. rewrite foldM_cons in Hinit.
  destruct (acceptable cfg (tar self0)) eqn:Htar; [done |]. exfalso.
  subst self0. unfold inp, tar, get, set_bundle in *.
  destruct data as [i t | b]; simpl in *; [| congruence].
  by rewrite init_bundle_unacceptable in Hinit.
Qed.

End constructor_results.

(** ** The constructor: what a user of [Dataset] can rely on *)

Lemma dict_values_alter_Forall {V} (P : V → Prop) (f : V → V) k (d : dict V) :
  (∀ v, P v → P (f v)) →
  Forall P (dict_values d) → Forall P (dict_values (Construct.dict_alter f k d)).
Proof.
  intros Hf. unfold dict_values.
  induction d as [| [k0 v0] d IH]; simpl; [done |].
  intros [Hv Hd]%Forall_cons.
  case_decide; simpl; constructor; auto.
Qed.

(** X1. On bundles typed as the docstring has them, the constructor returns
    an instance with the given batch size, the same keys in both bundles,
    and under every key the normalised column: padded lyrics under
    [lyrics], padded matrices under [note], every other column (so [tempo])
    as it was.  The size is counted from [tar] when [tar] has a [note] or a
    [lyrics] column, and from [inp] otherwise.  On the typed entries the
    normalisation is that of the two inner functions. *)
Theorem X1_init_normalizes (cfg : config) (data : Dataset.bundles)
    (batch_size pv : Z) :
  let self0 := Dataset.Make batch_size data None in
  Construct.well_typed (Dataset.inp self0) = true →
  Construct.well_typed (Dataset.tar self0) = true →
  ∃ self,
    Dataset.__init__ cfg data batch_size pv = Ok self
    ∧ Dataset.bs self = batch_size
    ∧ (∀ s, dict_keys (Dataset.get s self) = dict_keys (Dataset.get s self0))
    ∧ (∀ s k, dict_get k (Dataset.get s self)
              = Construct.normalized cfg pv k <$> dict_get k (Dataset.get s self0))
    ∧ Dataset.size self
      = match Construct.counted (Dataset.tar self0) with
        | Some n => Some n
        | None => Construct.counted (Dataset.inp self0)
        end
    ∧ (∀ lyr, Construct.norm_lyrics cfg pv (Dataset.Lyrics lyr)
              = Dataset.Lyrics (padLyrics1 cfg pv lyr))
    ∧ (∀ note, Construct.norm_note cfg (Dataset.Note note)
               = Dataset.Note (padNote1 cfg note)).
Proof.
  intros self0 Hinp Htar. eexists.
  split; [by apply init_typed |]. split; [done |].
  subst self0. unfold Dataset.inp, Dataset.tar, Dataset.get in *.
  split_and!; [| | done | apply norm_lyrics_Lyrics | apply norm_note_Note].
  - intros s. destruct data as [i t | b], s; simpl;
      apply dict_keys_normalize.
  - intros s k. destruct data as [i t | b], s; simpl;
      apply dict_get_normalize.
Qed.

Lemma X1_init_normalizes_witness :
  ∃ self,
    Dataset.__init__ Scenario.cfg (Dataset.Distinct Scenario.inp Scenario.tar) 3 0
    = Ok self
    ∧ Dataset.size self = Some 7%Z.
Proof.
  destruct (X1_init_normalizes Scenario.cfg
              (Dataset.Distinct Scenario.inp Scenario.tar) 3 0 eq_refl eq_refl)
    as (self & Hinit & _ & _ & _ & Hsize & _).
  exists self. split; [exact Hinit | exact Hsize].
Defined.

Lemma lyrics_shaped_norm (cfg : config) pv e :
  Construct.is_list e = true →
  Construct.lyrics_shaped cfg (Construct.norm_lyrics cfg pv e) = true.
Proof.
  destruct e as [| | lyr]; simpl; [done | done |]. intros _.
  apply bool_decide_eq_true.
  rewrite length_app, length_take, length_replicate. lia.
Qed.

Lemma track_shaped_norm (cfg : config) track :
  Construct.is_list track = true →
  Construct.track_shaped cfg (Construct.norm_track cfg track) = true.
Proof.
  destruct track as [| | track]; simpl; [done | done |]. intros _.
  apply bool_decide_eq_true.
  rewrite length_app, length_take, length_replicate. lia.
Qed.

Lemma note_shaped_norm (cfg : config) e :
  Construct.note_ok cfg e = true →
  Construct.note_shaped cfg (Construct.norm_note cfg e) = true.
Proof.
  destruct e as [| | note]; simpl; [done | done |]. intros Hok.
  apply andb_true_intro. split.
  - apply bool_decide_eq_true.
    rewrite length_app, length_fmap, length_take, length_replicate. lia.
  - apply Is_true_true_1, forallb_True, Forall_app. split.
    + apply Forall_fmap. apply Is_true_true_2, forallb_True in Hok.
      eapply Forall_impl; [exact Hok |]. intros track Htrack. simpl.
      by apply Is_true_true_2, track_shaped_norm, Is_true_true_1.
    + apply Forall_replicate. simpl. apply Is_true_true_2, bool_decide_eq_true.
      apply length_replicate.
Qed.

(** X2. Whenever the constructor returns, every entry of a [lyrics] column
    is a list of exactly [L_lyr] elements and every entry of a [note]
    column is a list of exactly [Ci] lists of [L_note] elements, in both
    bundles. *)
Theorem X2_init_shapes (cfg : config) (data : Dataset.bundles)
    (batch_size pv : Z) (self : Dataset.t) :
  Dataset.__init__ cfg data batch_size pv = Ok self →
  ∀ s col,
    (dict_get "lyrics" (Dataset.get s self) = Some col →
     forallb (Construct.lyrics_shaped cfg) col = true)
    ∧ (dict_get "note" (Dataset.get s self) = Some col →
       forallb (Construct.note_shaped cfg) col = true).
Proof.
  intros Hinit s col.
  destruct (init_Ok_acceptable cfg _ _ _ _ Hinit) as [Hinp Htar].
  rewrite (init_accepted cfg data batch_size pv Hinp Htar) in Hinit.
  injection Hinit as <-.
  assert (∃ d, Dataset.get s
                 (Dataset.Make batch_size
                    match data with
                    | Dataset.Distinct i t =>
                        Dataset.Distinct (Construct.normalize cfg pv i)
                                         (Construct.normalize cfg pv t)
                    | Dataset.Shared b => Dataset.Shared (Construct.normalize cfg pv b)
                    end
                    match Construct.counted
                            (Dataset.tar (Dataset.Make batch_size data None)) with
                    | Some n => Some n
                    | None => Construct.counted
                                (Dataset.inp (Dataset.Make batch_size data None))
                    end)
               = Construct.normalize cfg pv d
               ∧ Construct.acceptable cfg d = true) as (d & -> & Hd).
  { unfold Dataset.inp, Dataset.tar, Dataset.get in *.
    destruct data as [i t | b], s; simpl in *; eauto. }
  rewrite !dict_get_normalize. unfold Construct.normalized. simpl.
  unfold Construct.acceptable in Hd. apply andb_prop in Hd as [Hl Hn].
  split.
  - destruct (dict_get "lyrics" d) as [col0 |]; simpl; [| done].
    intros [= <-]. apply Is_true_true_1, forallb_True, Forall_fmap.
    apply Is_true_true_2, forallb_True in Hl.
    eapply Forall_impl; [exact Hl |]. intros e He. simpl.
    by apply Is_true_true_2, lyrics_shaped_norm, Is_true_true_1.
  - destruct (dict_get "note" d) as [col0 |]; simpl; [| done].
    intros [= <-]. apply Is_true_true_1, forallb_True, Forall_fmap.
    apply Is_true_true_2, forallb_True in Hn.
    eapply Forall_impl; [exact Hn |]. intros e He. simpl.
    by apply Is_true_true_2, note_shaped_norm, Is_true_true_1.
Qed.

Lemma X2_init_shapes_witness :
  forallb (Construct.lyrics_shaped Scenario.cfg) Scenario.lyrics_column = true.
Proof.
  exact (proj1 (X2_init_shapes Scenario.cfg
                  (Dataset.Distinct Scenario.inp Scenario.tar) 3 0
                  Scenario.dataset eq_refl Dataset.Inp Scenario.lyrics_column)
               eq_refl).
Defined.

Lemma normalize_lengths (cfg : config) (pv : Z) (n : nat) (d : Dataset.bundle) :
  Forall (λ col, length col = n) (dict_values d) →
  Forall (λ col, length col = n) (dict_values (Construct.normalize cfg pv d)).
Proof.
  intros Hd. unfold Construct.normalize.
  do 2 (apply dict_values_alter_Forall;
        [intros col <-; apply length_fmap |]).
  done.
Qed.

Lemma counted_lengths (n : nat) (d : Dataset.bundle) m :
  Forall (λ col, length col = n) (dict_values d) →
  Construct.counted d = Some m → m = Z.of_nat n.
Proof.
  intros Hd. rewrite Forall_forall in Hd.
  assert (∀ k col, dict_get k d = Some col → length col = n) as Hget.
  { intros k col Hk. apply Hd. unfold dict_values.
    induction d as [| [k0 c0] d IH]; simpl in *; [done |].
    case_decide; simplify_eq; [left | right; apply IH; [| done]].
    intros c Hc. apply Hd. by right. }
  unfold Construct.counted.
  destruct (dict_get "note" d) as [col |] eqn:Hn.
  - intros [= <-]. by rewrite (Hget _ _ Hn).
  - destruct (dict_get "lyrics" d) as [col |] eqn:Hl; [| done].
    intros [= <-]. by rewrite (Hget _ _ Hl).
Qed.

(** X3. When the constructor returns on bundles whose columns all hold [n]
    records, one of which is a [lyrics] or a [note] column, the instance has
    [size = n], every column of both bundles still holds [n] records, and
    the keys of both bundles are the ones given. *)
Theorem X3_init_record_count (cfg : config) (data : Dataset.bundles)
    (batch_size pv : Z) (self : Dataset.t) (n : nat) :
  let self0 := Dataset.Make batch_size data None in
  Dataset.__init__ cfg data batch_size pv = Ok self →
  Forall (λ col, length col = n)
         (dict_values (Dataset.inp self0) ++ dict_values (Dataset.tar self0)) →
  is_Some (Construct.counted (Dataset.inp self0))
  ∨ is_Some (Construct.counted (Dataset.tar self0)) →
  Dataset.size self = Some (Z.of_nat n)
  ∧ Forall (λ col, length col = n)
           (dict_values (Dataset.inp self) ++ dict_values (Dataset.tar self))
  ∧ dict_keys (Dataset.inp self) = dict_keys (Dataset.inp self0)
  ∧ dict_keys (Dataset.tar self) = dict_keys (Dataset.tar self0).
Proof.
  intros self0 Hinit Hlen Hsome.
  destruct (init_Ok_acceptable cfg _ _ _ _ Hinit) as [Hinp Htar].
  rewrite (init_accepted cfg data batch_size pv Hinp Htar) in Hinit.
  injection Hinit as <-. fold self0.
  apply Forall_app in Hlen as [Hli Hlt].
  split_and!.
  - simpl. destruct (Construct.counted (Dataset.tar self0)) as [m |] eqn:Ht.
    + by rewrite (counted_lengths n _ m Hlt Ht).
    + destruct Hsome as [[m Hi] | [m Hm]]; [| done].
      rewrite Hi. by rewrite (counted_lengths n _ m Hli Hi).
  - subst self0. unfold Dataset.inp, Dataset.tar, Dataset.get in *.
    destruct data as [i t | b]; simpl in *;
      apply Forall_app; split; by apply normalize_lengths.
  - subst self0. unfold Dataset.inp, Dataset.tar, Dataset.get in *.
    destruct data as [i t | b]; simpl; apply dict_keys_normalize.
  - subst self0. unfold Dataset.inp, Dataset.tar, Dataset.get in *.
    destruct data as [i t | b]; simpl; apply dict_keys_normalize.
Qed.

Lemma X3_init_record_count_witness :
  Dataset.size Scenario.dataset = Some 7%Z
  ∧ Forall (λ col, length col = 7)
           (dict_values (Dataset.inp Scenario.dataset)
            ++ dict_values (Dataset.tar Scenario.dataset)).
Proof.
  destruct (X3_init_record_count Scenario.cfg
              (Dataset.Distinct Scenario.inp Scenario.tar) 3 0
              Scenario.dataset 7 eq_refl
              ltac:(repeat constructor)
              ltac:(left; eexists; reflexivity))
    as (Hsize & Hlen & _).
  split; [exact Hsize | exact Hlen].
Defined.

(** X4. Bundles that carry neither a [lyrics] nor a [note] column are
    accepted by the constructor, untouched, but the instance has no size:
    [len] and every batch retrieval then raise [AttributeError]. *)
Theorem X4_init_without_size (cfg : config) (data : Dataset.bundles)
    (batch_size pv : Z) :
  let self0 := Dataset.Make batch_size data None in
  Construct.counted (Dataset.inp self0) = None →
  Construct.counted (Dataset.tar self0) = None →
  Dataset.__init__ cfg data batch_size pv = Ok self0
  ∧ Dataset.len self0 = Err AttributeError
  ∧ ∀ i, Dataset.__getitem__ self0 i = Err AttributeError.
Proof.
  intros self0 Hinp Htar.
  assert (∀ d, Construct.counted d = None →
               Construct.well_typed d = true ∧ Construct.normalize cfg pv d = d)
    as Hnone.
  { intros d. unfold Construct.counted, Construct.well_typed, Construct.normalize.
    destruct (dict_get "note" d) eqn:Hn; [done |].
    destruct (dict_get "lyrics" d) eqn:Hl; [done |]. intros _.
    split; [done |]. by rewrite (dict_alter_None _ "lyrics"), dict_alter_None. }
  destruct (Hnone _ Hinp) as [Hti Hni]. destruct (Hnone _ Htar) as [Htt Hnt].
  split_and!; [| done | done].
  rewrite (init_typed cfg data batch_size pv Hti Htt).
  fold self0. rewrite Htar, Hinp. subst self0.
  unfold Dataset.inp, Dataset.tar, Dataset.get in *.
  destruct data as [i t | b]; simpl in *; congruence.
Qed.

Lemma X4_init_without_size_witness :
  Dataset.__init__ Scenario.cfg
    (Dataset.Shared [("tempo", [Dataset.Tempo 1%Q])]) 3 0
  = Ok (Dataset.Make 3 (Dataset.Shared [("tempo", [Dataset.Tempo 1%Q])]) None)
  ∧ Dataset.__getitem__
      (Dataset.Make 3 (Dataset.Shared [("tempo", [Dataset.Tempo 1%Q])]) None) 0
    = Err AttributeError.
Proof.
  destruct (X4_init_without_size Scenario.cfg
              (Dataset.Shared [("tempo", [Dataset.Tempo 1%Q])]) 3 0
              eq_refl eq_refl) as (Hinit & _ & Hget).
  split; [exact Hinit | exact (Hget 0%Z)].
Defined.

(** X5. Constructing again from the bundles of a constructed instance, with
    any batch size and any pad value, changes neither the bundles nor the
    size: normalisation in place is idempotent, also through a shared
    dict. *)
Theorem X5_init_again (cfg : config) (data : Dataset.bundles)
    (batch_size pv batch_size' pv' : Z) (self : Dataset.t) :
  Dataset.__init__ cfg data batch_size pv = Ok self →
  Dataset.__init__ cfg (Dataset.data self) batch_size' pv'
  = Ok (Dataset.Make batch_size' (Dataset.data self) (Dataset.size self)).
Proof.
  intros Hinit.
  destruct (init_Ok_acceptable cfg _ _ _ _ Hinit) as [Hinp Htar].
  rewrite (init_accepted cfg data batch_size pv Hinp Htar) in Hinit.
  injection Hinit as <-. simpl.
  unfold Dataset.inp, Dataset.tar, Dataset.get in *.
  destruct data as [i t | b]; simpl in *.
  - rewrite init_accepted by (by apply acceptable_normalize).
    unfold Dataset.inp, Dataset.tar, Dataset.get. simpl.
    rewrite !normalize_twice, !counted_normalize. done.
  - rewrite init_accepted by (by apply acceptable_normalize).
    unfold Dataset.inp, Dataset.tar, Dataset.get. simpl.
    rewrite !normalize_twice, !counted_normalize. done.
Qed.

Lemma X5_init_again_witness :
  Dataset.__init__ Scenario.cfg (Dataset.data Scenario.dataset) 5 9
  = Ok (Dataset.Make 5 (Dataset.data Scenario.dataset)
          (Dataset.size Scenario.dataset)).
Proof.
  exact (X5_init_again Scenario.cfg (Dataset.Distinct Scenario.inp Scenario.tar)
           3 0 5 9 Scenario.dataset eq_refl).
Defined.

(** X6. Normalising a note matrix twice is normalising it once; and once a
    lyric sequence is normalised, normalising it again with any pad value
    leaves it as it is. *)
Theorem X6_normalize_again (cfg : config) :
  (∀ note, padNote1 cfg (padNote1 cfg note) = padNote1 cfg note)
  ∧ (∀ (pv pv' : Z) lyr,
       padLyrics1 cfg pv' (padLyrics1 cfg pv lyr) = padLyrics1 cfg pv lyr).
Proof.
  split.
  - apply padNote1_idempotent.
  - intros pv pv' lyr.
    rewrite (padLyrics1_long cfg pv' (padLyrics1 cfg pv lyr))
      by (rewrite padLyrics1_length; lia).
    apply take_ge. rewrite padLyrics1_length. lia.
Qed.

(** ** Every way a batch retrieval fails *)

Section getitem_errors.
Import Dataset Batch.
Local Open Scope Z_scope.



End getitem_errors.


Lemma getitem_Ok_inv (self : Dataset.t) (i n : Z) (b_inp b_tar : Dataset.batch) :
  Dataset.len self = Ok n → (i < n)%Z →
  Dataset.__getitem__ self i = Ok (b_inp, b_tar) →
  ∃ begin end_,
    Dataset.bounds self i = Ok (begin, end_)
    ∧ Dataset.batch_of (Dataset.inp self) begin end_ = Ok b_inp
    ∧ Dataset.batch_of (Dataset.tar self) begin end_ = Ok b_tar.
Proof.
  intros Hlen Hi. rewrite (getitem_in_range _ _ _ Hlen Hi).
  destruct (Dataset.bounds self i) as [[begin end_] |]; [| intros [=]].
  cbn [mbind result_bind].
  destruct (Dataset.batch_of (Dataset.inp self) begin end_) as [b1 |] eqn:H1;
    [| intros [=]].
  destruct (Dataset.batch_of (Dataset.tar self) begin end_) as [b2 |] eqn:H2;
    [| intros [=]].
  cbn [mbind result_bind]. intros [= <- <-]. by exists begin, end_.
Qed.

(** X8. In range, the side of the pair that [__getitem__] returns for a
    bundle is decided by the columns present: with a [note] column it is the
    pair of the [note] and [tempo] slices, also when the bundle has a
    [lyrics] column, whose slice is then discarded; without a [note] column
    it is the [lyrics] slice; without either it is [None]. *)
Theorem X8_batch_shape (self : Dataset.t) (i n : Z) (b_inp b_tar : Dataset.batch) :
  Dataset.len self = Ok n → (i < n)%Z →
  Dataset.__getitem__ self i = Ok (b_inp, b_tar) →
  ∃ begin end_,
    Dataset.bounds self i = Ok (begin, end_)
    ∧ ∀ s b, (s = Dataset.Inp ∧ b = b_inp) ∨ (s = Dataset.Tar ∧ b = b_tar) →
        match dict_get "note" (Dataset.get s self) with
        | Some note =>
            ∃ tempo, dict_get "tempo" (Dataset.get s self) = Some tempo
                     ∧ b = Dataset.BNoteTempo
                             (Dataset.Tensor (slice note begin end_))
                             (Dataset.Tensor (slice tempo begin end_))
        | None =>
            match dict_get "lyrics" (Dataset.get s self) with
            | Some lyrics => b = Dataset.BLyrics (Dataset.Tensor (slice lyrics begin end_))
            | None => b = Dataset.BNone
            end
        end.
Proof.
  intros Hlen Hi Hget.
  destruct (getitem_Ok_inv _ _ _ _ _ Hlen Hi Hget)
    as (begin & end_ & Hbounds & Hb1 & Hb2).
  exists begin, end_. split; [done |].
  rewrite batch_of_result in Hb1, Hb2. unfold Dataset.inp, Dataset.tar in *.
  intros s b [[-> ->] | [-> ->]].
  - destruct (dict_get "note" (Dataset.get Dataset.Inp self)) as [note |].
    + destruct (dict_get "tempo" (Dataset.get Dataset.Inp self)) as [tempo |];
        [| discriminate Hb1].
      exists tempo. split; [done | congruence].
    + destruct (dict_get "lyrics" (Dataset.get Dataset.Inp self)); congruence.
  - destruct (dict_get "note" (Dataset.get Dataset.Tar self)) as [note |].
    + destruct (dict_get "tempo" (Dataset.get Dataset.Tar self)) as [tempo |];
        [| discriminate Hb2].
      exists tempo. split; [done | congruence].
    + destruct (dict_get "lyrics" (Dataset.get Dataset.Tar self)); congruence.
Qed.

Lemma X8_batch_shape_witness :
  ∃ begin end_ tempo,
    Dataset.bounds Scenario.dataset 2 = Ok (begin, end_)
    ∧ dict_get "tempo" (Dataset.tar Scenario.dataset) = Some tempo
    ∧ Dataset.BNoteTempo (Dataset.Tensor [Dataset.Note [[7; 0]; [0; 0]]%Z])
                         (Dataset.Tensor [Dataset.Tempo 7%Q])
      = Dataset.BNoteTempo
          (Dataset.Tensor
             (slice ((λ n, Dataset.Note [[n; 0]; [0; 0]]%Z)
                       <$> [1; 2; 3; 4; 5; 6; 7]%Z) begin end_))
          (Dataset.Tensor (slice tempo begin end_)).
Proof.
  destruct (X8_batch_shape Scenario.dataset 2 3
              (Dataset.BLyrics (Dataset.Tensor [Dataset.Lyrics [7; 0; 0]%Z]))
              (Dataset.BNoteTempo
                 (Dataset.Tensor [Dataset.Note [[7; 0]; [0; 0]]%Z])
                 (Dataset.Tensor [Dataset.Tempo 7%Q]))
              eq_refl eq_refl eq_refl)
    as (begin & end_ & Hbounds & Hshape).
  destruct (Hshape Dataset.Tar _ (or_intror (conj eq_refl eq_refl)))
    as (tempo & Htempo & Hb).
  exists begin, end_, tempo.
  split; [exact Hbounds |]. split; [exact Htempo | exact Hb].
Defined.

(** ** Negative indices count windows from the end *)





(** ** The shuffle keeps the records, and cuts to the shortest column *)

Section shuffle_more.
Import Dataset Spec Batch.

Lemma dict_get_fmap {V} (f : V → V) k (d : dict V) :
  dict_get k (prod_map id f <$> d) = f <$> dict_get k d.
Proof.
  induction d as [| [k0 v0] d IH]; simpl; [done |]. by case_decide.
Qed.

Lemma lookups_take {A} `{Inhabited A} (l : list A) m :
  m ≤ length l → (λ j, l !!! j) <$> seq 0 m = take m l.
Proof.
  intros Hm. apply list_eq. intros i. rewrite list_lookup_fmap.
  destruct (decide (i < m)) as [Hi | Hi].
  - rewrite lookup_seq_lt, lookup_take_lt by done. simpl.
    symmetry. apply list_lookup_lookup_total_lt. lia.
  - rewrite lookup_seq_ge, lookup_take_ge by lia. done.
Qed.

Lemma reindex_Permutation {A} `{Inhabited A} (σ : list nat) (l : list A) m :
  σ ≡ₚ seq 0 m → m ≤ length l → reindex σ l ≡ₚ take m l.
Proof.
  intros Hσ Hm. unfold reindex. rewrite Hσ. by rewrite lookups_take.
Qed.

Lemma reindex_length {A} `{Inhabited A} (σ : list nat) (l : list A) m :
  σ ≡ₚ seq 0 m → length (reindex σ l) = m.
Proof. intros Hσ. unfold reindex. by rewrite length_fmap, Hσ, length_seq. Qed.

Lemma zip_with_lookups {A B C} `{Inhabited A} (f : A → B → C) (c : list A)
    (g : nat → B) m :
  zip_with f c (g <$> seq 0 m)
  = (λ j, f (c !!! j) (g j)) <$> seq 0 (length c `min` m).
Proof.
  apply list_eq. intros i. rewrite lookup_zip_with, !list_lookup_fmap.
  destruct (decide (i < length c)) as [Hc | Hc].
  - rewrite (list_lookup_lookup_total_lt c i Hc). simpl.
    destruct (decide (i < m)) as [Hm | Hm].
    + by rewrite !lookup_seq_lt by lia.
    + by rewrite !lookup_seq_ge by lia.
  - rewrite (lookup_ge_None_2 c i) by lia. simpl.
    by rewrite lookup_seq_ge by lia.
Qed.

(** Columns zipped: as many rows as the shortest column has entries. *)
Lemma zip_star_shortest {A} `{Inhabited A} (cols : list (list A)) :
  cols ≠ [] →
  zip_star cols = (λ j, (λ col, col !!! j) <$> cols) <$> seq 0 (shortest cols).
Proof.
  induction cols as [| c cols IH]; [done |]. intros _.
  destruct cols as [| c' cols].
  - simpl. rewrite (list_as_lookups c) at 1. by rewrite <- list_fmap_compose.
  - change (zip_star (c :: c' :: cols))
      with (zip_with cons c (zip_star (c' :: cols))).
    rewrite IH by done. by rewrite zip_with_lookups.
Qed.

Lemma shortest_le {A} (cols : list (list A)) col :
  col ∈ cols → shortest cols ≤ length col.
Proof.
  induction cols as [| c cols IH]; [by intros ?%elem_of_nil |].
  intros [-> | Hin]%elem_of_cons.
  - destruct cols; simpl; lia.
  - destruct cols as [| c' cols]; [by apply elem_of_nil in Hin |].
    specialize (IH Hin). change (shortest (c :: c' :: cols))
      with (length c `min` shortest (c' :: cols)). lia.
Qed.

Lemma shortest_equal {A} (cols : list (list A)) n :
  cols ≠ [] → Forall (λ col, length col = n) cols → shortest cols = n.
Proof.
  induction cols as [| c cols IH]; [done |].
  intros _ [Hc Hcols]%Forall_cons. destruct cols as [| c' cols]; [done |].
  change (shortest (c :: c' :: cols)) with (length c `min` shortest (c' :: cols)).
  rewrite IH by done. lia.
Qed.

(** What [shuffle] leaves in the instance, whatever the lengths of the
    columns: nothing changes when the shortest column is empty (or there is
    no column); otherwise every column is read at the indices drawn for
    [0 .. m-1], [m] the length of the shortest. *)
Lemma shuffle_any_columns (g : Random.rng) (self : t) :
  NoDup (dict_keys (inp self)) →
  NoDup (dict_keys (tar self)) →
  let m := shortest (dict_values (inp self) ++ dict_values (tar self)) in
  let σ := (Random.shuffle g (seq 0 m)).1 in
  (shuffle g self).1
  = if decide (m = 0) then self
    else Make (bs self)
           (match data self with
            | Distinct inp tar =>
                Distinct (prod_map id (reindex σ) <$> inp)
                         (prod_map id (reindex σ) <$> tar)
            | Shared both => Shared (prod_map id (reindex σ) <$> both)
            end)
           (size self).
Proof.
  intros Hinp Htar m σ. unfold shuffle.
  set (cols := dict_values (inp self) ++ dict_values (tar self)) in *.
  destruct (decide (cols = [])) as [Hnil | Hne].
  - subst m. rewrite Hnil. simpl.
    by rewrite !take_nil, !drop_nil, !assign_nil.
  - rewrite (zip_star_shortest cols Hne). fold m.
    rewrite shuffle_fmap. fold σ. cbn [fst snd].
    pose proof (shuffle_Permutation g (seq 0 m)) as Hperm. fold σ in Hperm.
    destruct (decide (m = 0)) as [Hm | Hm].
    + rewrite Hm in Hperm. simpl in Hperm.
      apply Permutation_nil_r in Hperm. rewrite Hperm. simpl.
      by rewrite !take_nil, !drop_nil, !assign_nil.
    + assert (σ ≠ []) as Hσ.
      { intros Hσ. rewrite Hσ in Hperm. apply Permutation_nil_l in Hperm.
        by destruct m. }
      rewrite (zip_star_fmap (λ j (col : column), col !!! j) σ cols Hσ).
      change (λ y : column, (λ x, y !!! x) <$> σ) with (@reindex entry _ σ).
      subst cols. rewrite fmap_app.
      assert (length (reindex σ <$> dict_values (inp self)) = length (inp self))
        as Hli by (unfold dict_values; by rewrite !length_fmap).
      assert (length (reindex σ <$> dict_values (tar self)) = length (tar self))
        as Hlt by (unfold dict_values; by rewrite !length_fmap).
      rewrite take_app_length' by done.
      rewrite (assign_columns Inp) by done.
      unfold inp, tar, get in *.
      destruct self as [b [i t | both] sz]; simpl in *.
      * rewrite zip_keys_values.
        replace (length (prod_map id (reindex σ) <$> i))
          with (length (reindex σ <$> dict_values i))
          by (rewrite Hli; symmetry; apply length_fmap).
        rewrite drop_app_length.
        rewrite (assign_columns Tar); simpl;
          [by rewrite zip_keys_values | done | by unfold get].
      * rewrite zip_keys_values.
        replace (length (prod_map id (reindex σ) <$> both))
          with (length (reindex σ <$> dict_values both))
          by (rewrite Hli; symmetry; apply length_fmap).
        rewrite drop_app_length.
        pose proof (dict_keys_fmap (reindex σ) both) as Hkeys.
        rewrite (assign_columns Tar); simpl.
        -- by rewrite Hkeys, zip_keys_values.
        -- unfold get. simpl. by rewrite Hkeys.
        -- unfold get. simpl. by rewrite Hli, length_fmap.
Qed.

End shuffle_more.

Lemma dict_get_values {V} k (d : dict V) v :
  dict_get k d = Some v → v ∈ dict_values d.
Proof.
  unfold dict_values. induction d as [| [k0 v0] d IH]; simpl; [done |].
  case_decide; [intros [= ->]; left | intros Hget; right; by apply IH].
Qed.

(** X10. On a dataset whose columns all have one length, [shuffle] loses
    and duplicates nothing: both bundles keep their keys in order, every
    column is a permutation of what it was, and the batch size, the size and
    so [len] are unchanged. *)
Theorem X10_shuffle_keeps_records (g : Random.rng) (self : Dataset.t) (n : nat) :
  NoDup (dict_keys (Dataset.inp self)) →
  NoDup (dict_keys (Dataset.tar self)) →
  Forall (λ col, length col = n)
         (dict_values (Dataset.inp self) ++ dict_values (Dataset.tar self)) →
  let self' := (Dataset.shuffle g self).1 in
  (∀ s, dict_keys (Dataset.get s self') = dict_keys (Dataset.get s self))
  ∧ (∀ s k col, dict_get k (Dataset.get s self) = Some col →
       ∃ col', dict_get k (Dataset.get s self') = Some col' ∧ col' ≡ₚ col)
  ∧ Dataset.bs self' = Dataset.bs self
  ∧ Dataset.size self' = Dataset.size self
  ∧ Dataset.len self' = Dataset.len self.
Proof.
  intros Hinp Htar Hlen self'.
  pose proof (shuffle_columns g self n Hinp Htar Hlen) as Hshuffle.
  simpl in Hshuffle. fold self' in Hshuffle.
  set (σ := (Random.shuffle g (seq 0 n)).1) in *.
  assert (σ ≡ₚ seq 0 n) as Hperm by apply shuffle_Permutation.
  assert (∀ s, Dataset.get s self'
               = prod_map id (Spec.reindex σ) <$> Dataset.get s self) as Hget.
  { intros s. rewrite Hshuffle. unfold Dataset.get.
    by destruct self as [b [i t | both] sz], s. }
  split_and!.
  - intros s. rewrite Hget. apply dict_keys_fmap.
  - intros s k col Hcol. rewrite Hget, dict_get_fmap, Hcol. simpl.
    eexists. split; [done |].
    assert (length col = n) as Hn.
    { rewrite Forall_forall in Hlen. apply Hlen.
      apply dict_get_values in Hcol. unfold Dataset.inp, Dataset.tar.
      apply elem_of_app. unfold Dataset.get in *.
      destruct self as [b [i t | both] sz], s; simpl in *; auto. }
    rewrite (reindex_Permutation σ col n Hperm) by lia.
    by rewrite take_ge by lia.
  - by rewrite Hshuffle.
  - by rewrite Hshuffle.
  - rewrite Hshuffle. done.
Qed.

Lemma X10_shuffle_keeps_records_witness :
  ∃ col',
    dict_get "lyrics"
      (Dataset.get Dataset.Inp (Dataset.shuffle Scenario.rng Scenario.dataset).1)
    = Some col'
    ∧ col' ≡ₚ Scenario.lyrics_column.
Proof.
  destruct (X10_shuffle_keeps_records Scenario.rng Scenario.dataset 7
              ltac:(apply (bool_decide_unpack _); vm_compute; exact I)
              ltac:(apply (bool_decide_unpack _); vm_compute; exact I)
              ltac:(repeat constructor))
    as (_ & Hcols & _).
  exact (Hcols Dataset.Inp "lyrics" Scenario.lyrics_column eq_refl).
Defined.

(** X11. [shuffle] does not check that the columns have one length.  With
    [m] the length of the shortest column of both bundles: for [m = 0]
    nothing is shuffled at all, the instance is left as it is; for [m > 0]
    every column is cut to [m] entries, a permutation of its first [m], the
    same indices for all columns, and the entries beyond [m] are dropped,
    while [size] keeps its old value. *)
Theorem X11_shuffle_cuts_to_shortest (g : Random.rng) (self : Dataset.t) :
  NoDup (dict_keys (Dataset.inp self)) →
  NoDup (dict_keys (Dataset.tar self)) →
  let m := Batch.shortest (dict_values (Dataset.inp self)
                           ++ dict_values (Dataset.tar self)) in
  let self' := (Dataset.shuffle g self).1 in
  (m = 0 → self' = self)
  ∧ (0 < m →
     ∃ σ : list nat,
       σ ≡ₚ seq 0 m
       ∧ ∀ s k col, dict_get k (Dataset.get s self) = Some col →
           dict_get k (Dataset.get s self') = Some (Spec.reindex σ col)
           ∧ length (Spec.reindex σ col) = m
           ∧ Spec.reindex σ col ≡ₚ take m col)
  ∧ Dataset.size self' = Dataset.size self.
Proof.
  intros Hinp Htar m self'.
  pose proof (shuffle_any_columns g self Hinp Htar) as Hshuffle.
  simpl in Hshuffle. fold m self' in Hshuffle.
  set (σ := (Random.shuffle g (seq 0 m)).1) in *.
  assert (σ ≡ₚ seq 0 m) as Hperm by apply shuffle_Permutation.
  split_and!.
  - intros Hm. by rewrite Hshuffle, decide_True.
  - intros Hm. exists σ. split; [done |]. intros s k col Hcol.
    rewrite Hshuffle, decide_False by lia.
    assert (Dataset.get s
              (Dataset.Make (Dataset.bs self)
                 match Dataset.data self with
                 | Dataset.Distinct inp tar =>
                     Dataset.Distinct (prod_map id (Spec.reindex σ) <$> inp)
                                      (prod_map id (Spec.reindex σ) <$> tar)
                 | Dataset.Shared both =>
                     Dataset.Shared (prod_map id (Spec.reindex σ) <$> both)
                 end (Dataset.size self))
            = prod_map id (Spec.reindex σ) <$> Dataset.get s self) as ->.
    { unfold Dataset.get. by destruct self as [b [i t | both] sz], s. }
    rewrite dict_get_fmap, Hcol. split; [done |].
    split; [by apply reindex_length |].
    apply reindex_Permutation; [done |]. apply shortest_le.
    apply dict_get_values in Hcol. unfold Dataset.inp, Dataset.tar.
    apply elem_of_app. unfold Dataset.get in *.
    destruct self as [b [i t | both] sz], s; simpl in *; auto.
  - rewrite Hshuffle. by case_decide.
Qed.

Lemma X11_shuffle_cuts_to_shortest_witness :
  ∃ σ : list nat,
    σ ≡ₚ seq 0 2
    ∧ dict_get "lyrics"
        (Dataset.get Dataset.Inp (Dataset.shuffle Scenario.rng Batch.ragged).1)
      = Some (Spec.reindex σ [Dataset.Lyrics [1]; Dataset.Lyrics [2];
                              Dataset.Lyrics [3]]%Z)
    ∧ Dataset.size (Dataset.shuffle Scenario.rng Batch.ragged).1 = Some 3%Z.
Proof.
  destruct (X11_shuffle_cuts_to_shortest Scenario.rng Batch.ragged
              ltac:(apply (bool_decide_unpack _); vm_compute; exact I)
              ltac:(apply (bool_decide_unpack _); vm_compute; exact I))
    as (_ & Hcut & Hsize).
  destruct (Hcut ltac:(vm_compute; lia)) as (σ & Hperm & Hcols).
  exists σ. split; [exact Hperm |].
  split; [| exact Hsize].
  exact (proj1 (Hcols Dataset.Inp "lyrics" _ eq_refl)).
Defined.

(** ** More on the decoder *)

Section decoder_more.
Import Midi Decoder Spec.
Local Open Scope Z_scope.

Context (cfg : config) (id2Note : Z → raw_note).

Local Abbreviation step' := (add_note_emb cfg id2Note).
Local Abbreviation channel_step' := (add_channel cfg id2Note).
Local Abbreviation decodes' := (decodes cfg id2Note).

Lemma decodes_length c embs : ∀ time new,
  decodes' c time embs new → length new = length embs.
Proof.
  induction embs as [| emb embs IH]; intros time new Hdec;
    inversion Hdec; subst; simpl; [done |]. f_equal. by eapply IH.
Qed.


(** Each decoded event sits on the track and channel of its index, and
    carries the remapped fields of its embedding, [time] replaced. *)
Lemma decodes_events c embs : ∀ time new,
  decodes' c time embs new →
  Forall2 (λ emb ev,
             ev_track ev = c ∧ ev_channel ev = c
             ∧ ∃ note, remap cfg (id2Note emb) = Ok note
                       ∧ ∀ feat, feat ≠ "time" →
                           dict_get feat (ev_note ev) = dict_get feat note)
          embs new.
Proof.
  induction embs as [| emb embs IH]; intros time new Hdec;
    inversion Hdec as [| ? ? ? note t events Hnote Ht Hrest]; subst;
    constructor.
  - simpl. split_and!; [done | done |]. exists note. split; [done |].
    intros feat Hfeat. by rewrite dict_get_set_ne.
  - by eapply IH.
Qed.

(** The loop over the channels leaves the tracks from [k + len(l)] on
    alone. *)
Lemma channels_loop_above l : ∀ k midi midi',
  foldM channel_step' midi (enumerate k l) = Ok midi' →
  ∀ c, (k + length l ≤ c)%nat → tracks midi' !! c = tracks midi !! c.
Proof.
  induction l as [| embs l IH]; intros k midi midi'.
  - by intros [= <-].
  - change (enumerate k (embs :: l)) with ((k, embs) :: enumerate (S k) l).
    rewrite foldM_cons, add_channel_eq.
    destruct (foldM (step' k) (0, midi) embs) as [st |] eqn:Hloop;
      cbn [mbind result_bind]; [| intros [=]].
    apply channel_loop_Ok in Hloop as (new & _ & _ & Htracks & _).
    intros Hrest c Hc. simpl in Hc.
    rewrite (IH _ _ _ Hrest) by lia.
    rewrite Htracks. apply list_lookup_alter_ne. lia.
Qed.



End decoder_more.

Lemma vec2midi_tracks (cfg : config) (id2Note : Z → Decoder.raw_note)
    notes tempo midi :
  Decoder.vec2midi cfg id2Note (notes, tempo) = Ok midi →
  length (Midi.tracks midi) = music_Ci cfg
  ∧ Midi.tempo_events midi = [(0, 0%Z, (tempo * tempo_default cfg)%Q)]
  ∧ ∀ c, length notes ≤ c → Midi.track midi c = [].
Proof.
  intros [_ Hloop]%vec2midi_loop.
  pose proof (channels_loop_Ok _ _ _ _ _ _ Hloop) as (Htempo & Hlen & _ & _).
  pose proof (channels_loop_above _ _ _ _ _ _ Hloop) as Habove.
  split_and!.
  - rewrite Hlen. simpl. apply length_replicate.
  - by rewrite Htempo.
  - intros c Hc. unfold Midi.track. rewrite Habove by (simpl; lia).
    apply track_started.
Qed.




(** X13. A score that [vec2midi] returns has exactly [Ci] tracks and one
    tempo event, [tempo * config.tempo.default] on track 0 at time 0; track
    [c] holds one event for each embedding of channel [c], each on track and
    channel [c]; the tracks that have no channel are empty. *)
Theorem X13_score_shape (cfg : config) (id2Note : Z → Decoder.raw_note)
    (notes : list (list Z)) (tempo : Q) (midi : Midi.MIDIFile) :
  Decoder.vec2midi cfg id2Note (notes, tempo) = Ok midi →
  length (Midi.tracks midi) = music_Ci cfg
  ∧ Midi.tempo_events midi = [(0, 0%Z, (tempo * tempo_default cfg)%Q)]
  ∧ (∀ c embs, notes !! c = Some embs →
       length (Midi.track midi c) = length embs
       ∧ Forall (λ ev, Midi.ev_track ev = c ∧ Midi.ev_channel ev = c)
                (Midi.track midi c))
  ∧ (∀ c, length notes ≤ c → Midi.track midi c = []).
Proof.
  intros Hmidi.
  destruct (vec2midi_tracks _ _ _ _ _ Hmidi) as (Hlen & Htempo & Hrest).
  split_and!; [done | done | | done].
  intros c embs Hc.
  destruct (vec2midi_Ok _ _ _ _ _ Hmidi c embs Hc) as (new & Hdec & ->).
  split; [by eapply decodes_length |].
  apply decodes_events in Hdec. clear Hc.
  induction Hdec as [| emb ev embs' new' (Ht & Hch & _) _ IH];
    constructor; [by split | exact IH].
Qed.

Lemma X13_score_shape_witness :
  length (Midi.tracks Scenario.delta_score) = 2
  ∧ Midi.tempo_events Scenario.delta_score = [(0, 0%Z, (1 * 1)%Q)]
  ∧ Midi.track Scenario.delta_score 1 = [].
Proof.
  destruct (X13_score_shape Scenario.cfg Scenario.delta_id2Note
              [[5; 0; 3]%Z] 1%Q Scenario.delta_score
              ltac:(vm_compute; reflexivity))
    as (Hlen & Htempo & _ & Hrest).
  split; [exact Hlen |]. split; [exact Htempo |].
  exact (Hrest 1 ltac:(simpl; lia)).
Defined.

Lemma running_sums_sorted deltas : ∀ acc,
  Forall (λ d, 0 ≤ d)%Z deltas →
  StronglySorted Z.le (Spec.running_sums acc deltas)
  ∧ Forall (λ t, acc ≤ t)%Z (Spec.running_sums acc deltas).
Proof.
  induction deltas as [| d deltas IH]; intros acc Hpos; simpl.
  - split; constructor.
  - apply Forall_cons in Hpos as [Hd Hpos].
    destruct (IH (d + acc)%Z Hpos) as [Hsorted Hge]. split.
    + constructor; [done |]. eapply Forall_impl; [exact Hge |].
      simpl. intros. lia.
    + constructor; [lia |]. eapply Forall_impl; [exact Hge |].
      simpl. intros. lia.
Qed.

(** X14. When the embeddings of a channel all decode to a [time] that is not
    negative, the onsets of its track never decrease, and none is
    negative. *)
Theorem X14_onsets_do_not_decrease (cfg : config)
    (id2Note : Z → Decoder.raw_note) (notes : list (list Z)) (tempo : Q)
    (midi : Midi.MIDIFile) (c : nat) (embs : list Z) :
  Decoder.vec2midi cfg id2Note (notes, tempo) = Ok midi →
  notes !! c = Some embs →
  Forall (λ emb, ∀ d, Spec.decoded_time cfg id2Note emb = Some d → (0 ≤ d)%Z)
         embs →
  ∃ onsets,
    Midi.onset <$> Midi.track midi c = Some <$> onsets
    ∧ StronglySorted Z.le onsets
    ∧ Forall (λ t, 0 ≤ t)%Z onsets.
Proof.
  intros Hmidi Hc Hpos.
  destruct (vec2midi_Ok _ _ _ _ _ Hmidi c embs Hc) as (new & Hdec & ->).
  destruct (decodes_onsets _ _ _ _ _ _ Hdec) as (deltas & Hall & Hons).
  exists (Spec.running_sums 0 deltas). split; [done |].
  apply running_sums_sorted.
  clear Hons Hdec Hc. revert Hpos.
  induction Hall as [| emb d embs' deltas' Hd _ IH]; intros Hpos;
    [constructor |].
  apply Forall_cons in Hpos as [Hemb Hpos].
  constructor; [by apply Hemb | by apply IH].
Qed.

Lemma X14_onsets_do_not_decrease_witness :
  ∃ onsets,
    Midi.onset <$> Midi.track Scenario.delta_score 0 = Some <$> onsets
    ∧ StronglySorted Z.le onsets.
Proof.
  destruct (X14_onsets_do_not_decrease Scenario.cfg Scenario.delta_id2Note
              [[5; 0; 3]%Z] 1%Q Scenario.delta_score 0 [5; 0; 3]%Z
              ltac:(vm_compute; reflexivity) eq_refl)
    as (onsets & Hons & Hsorted & _).
  { repeat constructor; intros d [= <-]; lia. }
  exists onsets. split; [exact Hons | exact Hsorted].
Defined.



(** ** The feature remapping *)

Section remap_facts.
Import Decoder Remap.
Context (note : raw_note).

Local Abbreviation remap_step :=
  (λ (d : dict Z) '(feat, id), v ← raw_item note id; Ok (dict_set feat v d)).

Lemma remap_loop l : ∀ acc d,
  NoDup (dict_keys acc ++ dict_keys l) →
  foldM remap_step acc l = Ok d
  ↔ ∃ d', d = acc ++ d' ∧ Forall2 (reads note) l d'.
Proof.
  induction l as [| [feat id] l IH]; intros acc d Hnodup.
  - simpl. split.
    + intros [= <-]. exists []. by rewrite app_nil_r.
    + intros (d' & -> & Hd'). apply Forall2_nil_inv_l in Hd'. subst d'.
      by rewrite app_nil_r.
  - rewrite foldM_cons. unfold raw_item.
    assert (feat ∉ dict_keys acc) as Hfresh.
    { apply NoDup_app in Hnodup as (_ & Hdisj & _).
      intros Hin. apply (Hdisj _ Hin). unfold dict_keys. simpl. left. }
    assert (∀ v, dict_set feat v acc = acc ++ [(feat, v)]) as Hset.
    { intros v. pose proof (dict_set_app_notin feat v acc [] Hfresh) as Hs.
      by rewrite app_nil_r in Hs. }
    assert (NoDup (dict_keys (acc ++ [(feat, id)]) ++ dict_keys l)) as Hnodup'.
    { unfold dict_keys in *. rewrite fmap_app, <- app_assoc. simpl in *. done. }
    destruct (note id) as [v |] eqn:Hid; cbn [mbind result_bind].
    + rewrite Hset, IH.
      2: { unfold dict_keys in *. rewrite fmap_app in *. simpl in *. done. }
      split.
      * intros (d' & -> & Hd'). exists ((feat, v) :: d').
        rewrite <- app_assoc. split; [done |]. by constructor.
      * intros (d' & -> & Hd').
        apply Forall2_cons_inv_l in Hd' as ([feat' v'] & d'' & [Hf Hv] & Hd'' & ->).
        simpl in Hf, Hv. subst feat'. rewrite Hid in Hv. injection Hv as <-.
        exists d''. by rewrite <- app_assoc.
    + split; [intros [=] |]. intros (d' & -> & Hd').
      apply Forall2_cons_inv_l in Hd' as ([feat' v'] & d'' & [Hf Hv] & _).
      simpl in Hv. congruence.
Qed.

Lemma remap_loop_Err l : ∀ acc e,
  foldM remap_step acc l = Err e
  ↔ e = LookupError ∧ Exists (λ entry, note entry.2 = None) l.
Proof.
  induction l as [| [feat id] l IH]; intros acc e.
  - simpl. split; [intros [=] |]. intros [_ Hex]. by apply Exists_nil in Hex.
  - rewrite foldM_cons. unfold raw_item.
    destruct (note id) as [v |] eqn:Hid; cbn [mbind result_bind].
    + rewrite IH. split; intros [-> Hex]; (split; [done |]).
      * by right.
      * apply Exists_cons in Hex as [Hex | Hex]; [| done].
        simpl in Hex. congruence.
    + split.
      * intros [= <-]. split; [done |]. by left.
      * by intros [-> _].
Qed.

Lemma reads_lookup (l : dict Z) (d : dict Z) feat id :
  Forall2 (reads note) l d →
  dict_get feat l = Some id → dict_get feat d = note id.
Proof.
  induction 1 as [| [f i] [f' v] l d [Hf Hv] _ IH]; simpl; [done |].
  simpl in Hf, Hv. subst f'. case_decide; [| done]. by intros [= ->].
Qed.

Lemma reads_keys (l : dict Z) (d : dict Z) :
  Forall2 (reads note) l d → dict_keys d = dict_keys l.
Proof.
  unfold dict_keys.
  induction 1 as [| [f i] [f' v] l d [Hf Hv] _ IH]; simpl; [done |].
  simpl in Hf. by f_equal.
Qed.

End remap_facts.

Lemma dict_keys_set_present {V} k (v : V) (d : dict V) :
  is_Some (dict_get k d) → dict_keys (dict_set k v d) = dict_keys d.
Proof.
  unfold dict_keys. induction d as [| [k0 v0] d IH]; simpl.
  - by intros [? ?].
  - case_decide; simpl; [by subst | intros ?; f_equal; auto].
Qed.

(** X15. With distinct feature names in [feat2id], the remapping returns a
    dict exactly when the note has a raw field for every id that [feat2id]
    names; the dict then has the names of [feat2id], in its order, each with
    the raw field under its id.  Otherwise, and also with repeated names,
    the failure is the failed subscript on the note. *)
Theorem X15_remap (cfg : config) (note : Decoder.raw_note) :
  (∀ e, Decoder.remap cfg note = Err e
        ↔ e = LookupError
          ∧ Exists (λ entry, note entry.2 = None) (music_feat2id cfg))
  ∧ (NoDup (dict_keys (music_feat2id cfg)) →
     ∀ d, Decoder.remap cfg note = Ok d
          ↔ Forall2 (Remap.reads note) (music_feat2id cfg) d)
  ∧ (NoDup (dict_keys (music_feat2id cfg)) →
     ∀ d, Decoder.remap cfg note = Ok d →
       dict_keys d = dict_keys (music_feat2id cfg)
       ∧ ∀ feat id, dict_get feat (music_feat2id cfg) = Some id →
                    dict_get feat d = note id).
Proof.
  unfold Decoder.remap. split_and!.
  - intros e. apply remap_loop_Err.
  - intros Hnodup d. rewrite remap_loop by done. split.
    + by intros (d' & -> & Hd').
    + intros Hd. by exists d.
  - intros Hnodup d Hd. apply remap_loop in Hd as (d' & -> & Hd'); [| done].
    simpl. split; [by eapply reads_keys |].
    intros feat id. by apply reads_lookup.
Qed.

Lemma X15_remap_witness :
  ∃ d, Decoder.remap Scenario.cfg (Scenario.id2Note 1) = Ok d
       ∧ dict_keys d = dict_keys (music_feat2id Scenario.cfg).
Proof.
  destruct (Decoder.remap Scenario.cfg (Scenario.id2Note 1)) as [d | e] eqn:Hd;
    [| vm_compute in Hd; discriminate Hd].
  exists d. split; [reflexivity |].
  destruct (X15_remap Scenario.cfg (Scenario.id2Note 1)) as (_ & _ & Hkeys).
  exact (proj1 (Hkeys ltac:(apply (bool_decide_unpack _); vm_compute; exact I)
                  d Hd)).
Defined.

(** X16. With distinct feature names in [feat2id], every event of a score
    that [vec2midi] returns has the feature names of [feat2id] as its
    keywords, in that order, and under each name but [time] the raw field
    that [id2Note] gives its embedding under the id of that name; only
    [time] holds the accumulated onset instead. *)
Theorem X16_event_fields (cfg : config) (id2Note : Z → Decoder.raw_note)
    (notes : list (list Z)) (tempo : Q) (midi : Midi.MIDIFile) (c : nat)
    (embs : list Z) :
  NoDup (dict_keys (music_feat2id cfg)) →
  Decoder.vec2midi cfg id2Note (notes, tempo) = Ok midi →
  notes !! c = Some embs →
  Forall2 (λ emb ev,
             dict_keys (Midi.ev_note ev) = dict_keys (music_feat2id cfg)
             ∧ ∀ feat id, feat ≠ "time" →
                 dict_get feat (music_feat2id cfg) = Some id →
                 dict_get feat (Midi.ev_note ev) = id2Note emb id)
          embs (Midi.track midi c).
Proof.
  intros Hnodup Hmidi Hc.
  destruct (vec2midi_Ok _ _ _ _ _ Hmidi c embs Hc) as (new & Hdec & ->).
  clear Hc Hmidi. revert Hdec. generalize 0%Z.
  revert new. induction embs as [| emb embs IH]; intros new time Hdec;
    inversion Hdec as [| ? ? ? note t events Hnote Ht Hrest]; subst;
    constructor; [| by eapply IH].
  unfold Decoder.remap in Hnote.
  apply remap_loop in Hnote as (d' & -> & Hd'); [| done]. simpl in *.
  split.
  - rewrite dict_keys_set_present by eauto. by eapply reads_keys.
  - intros feat id Hfeat Hid. rewrite dict_get_set_ne by done.
    by eapply reads_lookup.
Qed.

Lemma X16_event_fields_witness :
  Forall2 (λ emb ev,
             dict_keys (Midi.ev_note ev) = ["time"; "pitch"; "duration"; "volume"]
             ∧ ∀ feat id, feat ≠ "time" →
                 dict_get feat (music_feat2id Scenario.cfg) = Some id →
                 dict_get feat (Midi.ev_note ev) = Scenario.delta_id2Note emb id)
          [5; 0; 3]%Z (Midi.track Scenario.delta_score 0).
Proof.
  exact (X16_event_fields Scenario.cfg Scenario.delta_id2Note [[5; 0; 3]%Z] 1%Q
           Scenario.delta_score 0 [5; 0; 3]%Z
           ltac:(apply (bool_decide_unpack _); vm_compute; exact I)
           ltac:(vm_compute; reflexivity) eq_refl).
Defined.

(** ** [load]: two instances over one target dict *)

Section load_facts.
Import Dataset Construct Heap.
Context (cfg : config).

Lemma load_accepted bs_tr bs_ae lyrics note tempo :
  forallb is_list lyrics = true → forallb (note_ok cfg) note = true →
  load cfg bs_tr bs_ae lyrics note tempo
  = Ok ([ [("lyrics", norm_lyrics cfg 0 <$> lyrics)];
          [("note", norm_note cfg <$> note); ("tempo", tempo)] ],
        Handle bs_ae 1 1 (Some (Z.of_nat (length note))),
        Handle bs_tr 0 1 (Some (Z.of_nat (length note)))).
Proof.
  intros Hlyrics Hnote. unfold load, init, view. simpl.
  rewrite init_accepted.
  2: { unfold acceptable, inp, get. simpl. by rewrite Hlyrics. }
  2: { unfold acceptable, tar, get. simpl. by rewrite Hnote. }
  cbn [mbind result_bind]. unfold commit, view, deref. simpl.
  assert (forallb (note_ok cfg) (norm_note cfg <$> note) = true) as Hnote'.
  { apply Is_true_true_1, forallb_True, Forall_fmap.
    apply Is_true_true_2, forallb_True in Hnote.
    eapply Forall_impl; [exact Hnote |]. intros e He. simpl.
    by apply Is_true_true_2, note_ok_norm_note, Is_true_true_1. }
  rewrite init_accepted.
  2: { unfold acceptable, inp, get. simpl. by rewrite Hnote'. }
  2: { unfold acceptable, tar, get. simpl. by rewrite Hnote'. }
  cbn [mbind result_bind]. unfold commit. simpl.
  unfold normalize, counted. simpl. rewrite !length_fmap.
  do 4 f_equal. do 3 f_equal.
  rewrite <- list_fmap_compose. apply list_fmap_ext.
  intros _ e _. apply norm_note_twice.
Qed.

Lemma load_typed bs_tr bs_ae lyrics note tempo :
  forallb is_lyrics lyrics = true → forallb is_note note = true →
  load cfg bs_tr bs_ae lyrics note tempo
  = Ok ([ [("lyrics", norm_lyrics cfg 0 <$> lyrics)];
          [("note", norm_note cfg <$> note); ("tempo", tempo)] ],
        Handle bs_ae 1 1 (Some (Z.of_nat (length note))),
        Handle bs_tr 0 1 (Some (Z.of_nat (length note)))).
Proof.
  intros Hlyrics Hnote. apply load_accepted.
  - apply Is_true_true_1, forallb_True.
    apply Is_true_true_2, forallb_True in Hlyrics.
    eapply Forall_impl; [exact Hlyrics |]. intros e He.
    by apply Is_true_true_2, is_lyrics_is_list, Is_true_true_1.
  - apply Is_true_true_1, forallb_True.
    apply Is_true_true_2, forallb_True in Hnote.
    eapply Forall_impl; [exact Hnote |]. intros e He.
    by apply Is_true_true_2, is_note_note_ok, Is_true_true_1.
Qed.

Lemma load_Ok_accepted bs_tr bs_ae lyrics note tempo r :
  load cfg bs_tr bs_ae lyrics note tempo = Ok r →
  forallb is_list lyrics = true ∧ forallb (note_ok cfg) note = true.
Proof.
  unfold load, init. intros Hload.
  destruct (__init__ cfg _ bs_tr 0) as [self |] eqn:Hinit;
    [| discriminate Hload].
  apply init_Ok_acceptable in Hinit as [Hi Htar].
  unfold acceptable, inp, tar, get, view, deref in Hi, Htar.
  simpl in Hi, Htar. rewrite andb_true_r in Hi. by rewrite Hi, Htar.
Qed.

End load_facts.

(** X18. [load], on columns typed as the record file has them, returns two
    instances over the same target dict: [dataset_ae] has it as both its
    [inp] and its [tar], [dataset_tr] has it as its [tar] next to its own
    lyrics dict.  Both have the number of note matrices as size, the lyrics
    and the matrices are normalised (the matrices once, though the target
    dict goes through the constructor three times), and the tempi are as
    read. *)
Theorem X18_load (cfg : config) (bs_tr bs_ae : Z)
    (lyrics note tempo : Dataset.column) :
  forallb Construct.is_lyrics lyrics = true →
  forallb Construct.is_note note = true →
  ∃ st dataset_ae dataset_tr,
    Heap.load cfg bs_tr bs_ae lyrics note tempo = Ok (st, dataset_ae, dataset_tr)
    ∧ Heap.h_inp dataset_ae = Heap.h_tar dataset_tr
    ∧ Heap.h_tar dataset_ae = Heap.h_tar dataset_tr
    ∧ Heap.h_inp dataset_tr ≠ Heap.h_tar dataset_tr
    ∧ Heap.h_bs dataset_ae = bs_ae ∧ Heap.h_bs dataset_tr = bs_tr
    ∧ Heap.h_size dataset_ae = Some (Z.of_nat (length note))
    ∧ Heap.h_size dataset_tr = Some (Z.of_nat (length note))
    ∧ Heap.deref st (Heap.h_inp dataset_tr)
      = [("lyrics", Construct.norm_lyrics cfg 0 <$> lyrics)]
    ∧ Heap.deref st (Heap.h_tar dataset_tr)
      = [("note", Construct.norm_note cfg <$> note); ("tempo", tempo)].
Proof.
  intros Hlyrics Hnote. eexists _, _, _.
  split; [by apply load_typed |]. simpl. by split_and!.
Qed.

Lemma X18_load_witness :
  ∃ st dataset_ae dataset_tr,
    Heap.loaded = (st, dataset_ae, dataset_tr)
    ∧ Heap.h_inp dataset_ae = Heap.h_tar dataset_tr
    ∧ Heap.h_size dataset_tr = Some 7%Z.
Proof.
  destruct (X18_load Scenario.cfg 3 2
              (default [] (dict_get "lyrics" Scenario.inp))
              (default [] (dict_get "note" Scenario.tar))
              (default [] (dict_get "tempo" Scenario.tar))
              eq_refl eq_refl)
    as (st & ae & tr & Hload & Hshare & _ & _ & _ & _ & _ & Hsize & _).
  exists st, ae, tr. unfold Heap.loaded.
  split; [by rewrite Hload |]. split; [exact Hshare | exact Hsize].
Defined.

(** X19. After [load], shuffling [dataset_ae] reorders the note and tempo
    columns that [dataset_tr] reads, by the permutation drawn, and leaves
    the lyrics column of [dataset_tr] as it was: position [k] of
    [dataset_tr] then pairs the lyrics of record [k] with the note matrix
    and tempo of record [σ[k]]. *)
Theorem X19_shuffle_reaches_other_instance (cfg : config) (g : Random.rng)
    (bs_tr bs_ae : Z) (lyrics note tempo : Dataset.column) (n : nat)
    (st : Heap.store) (dataset_ae dataset_tr : Heap.handle) :
  Heap.load cfg bs_tr bs_ae lyrics note tempo = Ok (st, dataset_ae, dataset_tr) →
  length lyrics = n → length note = n → length tempo = n →
  ∃ σ : list nat,
    σ ≡ₚ seq 0 n
    ∧ Heap.view (Heap.shuffle g st dataset_ae).1.1 dataset_tr
      = Dataset.Make bs_tr
          (Dataset.Distinct
             [("lyrics", Construct.norm_lyrics cfg 0 <$> lyrics)]
             [("note", Spec.reindex σ (Construct.norm_note cfg <$> note));
              ("tempo", Spec.reindex σ tempo)])
          (Some (Z.of_nat n))
    ∧ ∀ k j, σ !! k = Some j →
        (Construct.norm_lyrics cfg 0 <$> lyrics) !! k
        = Construct.norm_lyrics cfg 0 <$> lyrics !! k
        ∧ Spec.reindex σ (Construct.norm_note cfg <$> note) !! k
          = Construct.norm_note cfg <$> note !! j
        ∧ Spec.reindex σ tempo !! k = tempo !! j.
Proof.
  intros Hload Hl Hn Ht.
  destruct (load_Ok_accepted cfg _ _ _ _ _ _ Hload) as [Htl Htn].
  rewrite (load_accepted cfg bs_tr bs_ae lyrics note tempo Htl Htn) in Hload.
  injection Hload as <- <- <-.
  unfold Heap.shuffle, Heap.view at 2, Heap.deref. simpl.
  set (tar := [("note", Construct.norm_note cfg <$> note); ("tempo", tempo)]).
  set (self_ae := Dataset.Make bs_ae (Dataset.Shared tar)
                    (Some (Z.of_nat (length note)))).
  pose proof (shuffle_columns g self_ae n) as Hshuffle.
  simpl in Hshuffle.
  set (σ := (Random.shuffle g (seq 0 n)).1) in *.
  assert (NoDup (dict_keys tar)) as Hnodup
    by (apply (bool_decide_unpack _); vm_compute; exact I).
  specialize (Hshuffle Hnodup Hnodup).
  destruct (Dataset.shuffle g self_ae) as [self' g'] eqn:Hsh.
  simpl in Hshuffle. rewrite Hshuffle.
  2: { subst tar. unfold dict_values. simpl.
       repeat constructor; by rewrite ?length_fmap. }
  exists σ. split; [apply shuffle_Permutation |].
  split.
  - unfold Heap.view, Heap.commit, Heap.deref. simpl. by rewrite Hn.
  - intros k j Hkj.
    assert (j < n) as Hj.
    { pose proof (shuffle_Permutation g (seq 0 n)) as Hperm. fold σ in Hperm.
      apply list_elem_of_lookup_2 in Hkj. rewrite Hperm in Hkj.
      apply elem_of_seq in Hkj. lia. }
    split_and!.
    + apply list_lookup_fmap.
    + rewrite (reindex_lookup σ _ k j Hkj) by (by rewrite length_fmap, Hn).
      apply list_lookup_fmap.
    + by rewrite (reindex_lookup σ _ k j Hkj) by (by rewrite Ht).
Qed.

Lemma X19_shuffle_reaches_other_instance_witness :
  ∃ σ : list nat,
    σ ≡ₚ seq 0 7
    ∧ ∀ k j, σ !! k = Some j →
        Spec.reindex σ (default [] (dict_get "tempo" Scenario.tar)) !! k
        = default [] (dict_get "tempo" Scenario.tar) !! j.
Proof.
  destruct (X19_shuffle_reaches_other_instance Scenario.cfg Scenario.rng 3 2
              (default [] (dict_get "lyrics" Scenario.inp))
              (default [] (dict_get "note" Scenario.tar))
              (default [] (dict_get "tempo" Scenario.tar))
              7 Heap.loaded.1.1 Heap.loaded.1.2 Heap.loaded.2
              eq_refl eq_refl eq_refl eq_refl)
    as (σ & Hperm & _ & Hpos).
  exists σ. split; [exact Hperm |].
  intros k j Hkj. exact (proj2 (proj2 (Hpos k j Hkj))).
Defined.

(** The scenario, loaded and then shuffled through [dataset_ae]: the
    lyrics that [dataset_tr] reads are in file order, its tempi are not. *)
Example shuffle_ae_scenario :
  let st := (Heap.shuffle Scenario.rng Heap.loaded.1.1 Heap.loaded.1.2).1.1 in
  dict_get "lyrics" (Dataset.inp (Heap.view st Heap.loaded.2))
  = dict_get "lyrics" (Dataset.inp (Heap.view Heap.loaded.1.1 Heap.loaded.2))
  ∧ dict_get "tempo" (Dataset.tar (Heap.view st Heap.loaded.2))
    ≠ dict_get "tempo" (Dataset.tar (Heap.view Heap.loaded.1.1 Heap.loaded.2)).
Proof. vm_compute. split; [done | by intros [=]]. Qed.

(** ** The files of the corpus *)

Section files_facts.

Import Files.

Lemma enumerate_lookup {A} (l : list A) (s i : nat) :
  enumerate s l !! i = (λ x, (s + i, x)) <$> l !! i.
Proof.
  revert s i. induction l as [| x l IH]; intros s [| i]; simpl; try done.
  - by rewrite Nat.add_0_r.
  - rewrite IH. by replace (S s + i) with (s + S i) by lia.
Qed.

Lemma enumerate_fst {A} (l : list A) (s : nat) :
  (enumerate s l).*1 = seq s (length l).
Proof. revert s. induction l as [| x l IH]; intros s; simpl; by rewrite ?IH. Qed.

Lemma enumerate_snd {A} (l : list A) (s : nat) : (enumerate s l).*2 = l.
Proof. revert s. induction l as [| x l IH]; intros s; simpl; by rewrite ?IH. Qed.

Lemma enumerate_length {A} (l : list A) (s : nat) :
  length (enumerate s l) = length l.
Proof. by rewrite <- (length_fmap fst), enumerate_fst, length_seq. Qed.

Lemma enumerate_take {A} (l : list A) (s k : nat) :
  enumerate s (take k l) = take k (enumerate s l).
Proof.
  revert s k. induction l as [| x l IH]; intros s [| k]; simpl; try done.
  by rewrite IH.
Qed.

Lemma slice_prefix {A} (l : list A) (e : option Z) :
  slice l 0 e
  = take (match e with
          | Some e => slice_index (length l) e
          | None => length l
          end) l.
Proof.
  unfold slice. replace (slice_index (length l) 0) with 0
    by (unfold slice_index; case_decide; lia).
  by rewrite Nat.sub_0_r.
Qed.

Lemma slice_suffix {A} (l : list A) (b : Z) :
  slice l b None = drop (slice_index (length l) b) l.
Proof.
  unfold slice. apply take_ge. rewrite length_drop. lia.
Qed.

Lemma slice_index_le (len : nat) (k : Z) : slice_index len k ≤ len.
Proof. unfold slice_index. case_decide; lia. Qed.

Lemma StronglySorted_strict {A} (R : relation A) (l : list A) :
  StronglySorted R l → NoDup l → StronglySorted (λ a b, R a b ∧ a ≠ b) l.
Proof.
  induction 1 as [| x l Hl IH Hx]; intros Hnd; [constructor |].
  apply NoDup_cons in Hnd as [Hxl Hnd]. constructor; [by apply IH |].
  apply Forall_forall. intros y Hy. split.
  - by eapply Forall_forall in Hx.
  - by intros ->.
Qed.

Lemma sorted_Permutation (l : list string) : sorted l ≡ₚ l.
Proof. apply merge_sort_Permutation. Qed.

Lemma sorted_StronglySorted (l : list string) :
  StronglySorted String.le (sorted l).
Proof. apply (StronglySorted_merge_sort _). Qed.

Lemma sorted_elements (X Y : gset string) :
  X = Y → sorted (elements X) = sorted (elements Y).
Proof. by intros ->. Qed.

Variable glob : string → list string.
Variable name : string → string.

Local Abbreviation common lyr_path midi_path :=
  (list_to_set (name <$> glob lyr_path)
   ∩ list_to_set (name <$> glob midi_path) : gset string).

Lemma loadPath_names n lyr_path midi_path :
  path_name <$> loadPath glob name n lyr_path midi_path
  = slice (sorted (elements (common lyr_path midi_path))) 0 n.
Proof.
  unfold loadPath. rewrite <- list_fmap_compose.
  rewrite <- (enumerate_snd (slice _ 0 n) 0) at 2. by apply list_fmap_ext.
Qed.

Lemma loadPath_ids n lyr_path midi_path :
  path_id <$> loadPath glob name n lyr_path midi_path
  = seq 0 (length (loadPath glob name n lyr_path midi_path)).
Proof.
  unfold loadPath. rewrite <- list_fmap_compose, length_fmap, enumerate_length.
  rewrite <- (enumerate_fst (slice _ 0 n) 0). by apply list_fmap_ext.
Qed.

Lemma loadPath_take n lyr_path midi_path :
  loadPath glob name n lyr_path midi_path
  = take (match n with
          | Some n =>
              slice_index (length (loadPath glob name None lyr_path midi_path)) n
          | None => length (loadPath glob name None lyr_path midi_path)
          end)
         (loadPath glob name None lyr_path midi_path).
Proof.
  assert (length (loadPath glob name None lyr_path midi_path)
          = length (sorted (elements (common lyr_path midi_path)))) as Hlen.
  { unfold loadPath. rewrite length_fmap, enumerate_length, slice_prefix.
    by rewrite firstn_all. }
  rewrite Hlen. unfold loadPath.
  rewrite (slice_prefix _ n), (slice_prefix _ None), firstn_all.
  by rewrite enumerate_take, fmap_take.
Qed.

Lemma loadPath_names_all lyr_path midi_path :
  path_name <$> loadPath glob name None lyr_path midi_path
  = sorted (elements (common lyr_path midi_path)).
Proof. by rewrite loadPath_names, slice_prefix, firstn_all. Qed.

Lemma loadPath_name_elem_of lyr_path midi_path (s : string) :
  s ∈ path_name <$> loadPath glob name None lyr_path midi_path
  ↔ s ∈ name <$> glob lyr_path ∧ s ∈ name <$> glob midi_path.
Proof.
  rewrite loadPath_names_all, sorted_Permutation, elem_of_elements.
  by rewrite elem_of_intersection, !elem_of_list_to_set.
Qed.

Lemma loadPath_names_NoDup lyr_path midi_path :
  NoDup (path_name <$> loadPath glob name None lyr_path midi_path).
Proof.
  rewrite loadPath_names_all, sorted_Permutation. apply NoDup_elements.
Qed.

End files_facts.

Lemma floordiv_bounds (n s : Z) :
  (0 ≤ n)%Z →
  ((0 < s)%Z → (0 ≤ n `div` s ≤ n)%Z)
  ∧ ((s < 0)%Z → (- n ≤ n `div` s ≤ 0)%Z ∧ (n `div` s = 0 → n = 0)%Z).
Proof.
  intros Hn. split; intros Hs.
  - split; [apply Z.div_pos; lia | apply Z.div_le_upper_bound; nia].
  - rewrite <- (Z.div_opp_opp n s) by lia. split_and!.
    + apply Z.div_le_lower_bound; nia.
    + apply Z.div_le_upper_bound; lia.
    + intros H0. destruct (decide (n = 0)%Z) as [| Hne]; [done |].
      assert ((- n) `div` (- s) < 0)%Z; [| lia].
      apply Z.div_lt_upper_bound; lia.
Qed.

Lemma save_split_Ok {A} (g : Random.rng) (paths : list A) (split : Z)
    (train valid : list A) :
  Files.save_split g paths split = Ok (train, valid) →
  valid ++ train = (Random.shuffle g paths).1 ∧ valid ++ train ≡ₚ paths.
Proof.
  unfold Files.save_split. case_decide; [done |]. intros [= <- <-].
  rewrite slice_prefix, slice_suffix, take_drop.
  split; [done | apply shuffle_Permutation].
Qed.

(** The corpus, listed: the three songs with both files, in the order of
    their names. *)
Example loadPath_corpus :
  Files.loadPath Files.corpus_glob Files.corpus_name None "seg/*.txt" "csv/*.csv"
  = [(0, "a", "seg/a.txt", "csv/a.csv");
     (1, "b", "seg/b.txt", "csv/b.csv");
     (2, "c", "seg/c.txt", "csv/c.csv")].
Proof. by vm_compute. Qed.

(** X20. [loadPath()] lists exactly the songs that have a lyrics file and a
    score, each once, in the strictly increasing order of their names; the
    id of a song is its position in that order, and its two paths are the
    two patterns with the name put for every star. *)
Theorem X20_loadPath (glob : string → list string) (name : string → string)
    (lyr_path midi_path : string) :
  let paths := Files.loadPath glob name None lyr_path midi_path in
  (∀ s, s ∈ Files.path_name <$> paths
        ↔ s ∈ name <$> glob lyr_path ∧ s ∈ name <$> glob midi_path)
  ∧ StronglySorted (λ a b, String.le a b ∧ a ≠ b) (Files.path_name <$> paths)
  ∧ Files.path_id <$> paths = seq 0 (length paths)
  ∧ (∀ i p, paths !! i = Some p →
       Files.path_id p = i
       ∧ Files.path_lyr p = Files.replace_star (Files.path_name p) lyr_path
       ∧ Files.path_midi p = Files.replace_star (Files.path_name p) midi_path).
Proof.
  intros paths. split_and!.
  - apply loadPath_name_elem_of.
  - apply StronglySorted_strict; [| apply loadPath_names_NoDup].
    unfold paths. rewrite loadPath_names_all. apply sorted_StronglySorted.
  - apply loadPath_ids.
  - intros i p Hp. unfold paths, Files.loadPath in Hp.
    rewrite list_lookup_fmap, enumerate_lookup in Hp.
    destruct (_ !! i) as [s |]; [| done]. simpl in Hp. by injection Hp as <-.
Qed.

(** X21. [loadPath(n)] is a prefix of [loadPath()], ids included: the first
    [n] songs for [n >= 0], so none for [n = 0], and all but the last [-n]
    songs for [n < 0]. *)
Theorem X21_loadPath_prefix (glob : string → list string)
    (name : string → string) (n : Z) (lyr_path midi_path : string) :
  let paths := Files.loadPath glob name None lyr_path midi_path in
  Files.loadPath glob name (Some n) lyr_path midi_path
  = take (if decide (n < 0)%Z
          then length paths - Z.to_nat (- n)
          else Z.to_nat n) paths.
Proof.
  intros paths. rewrite loadPath_take. fold paths. unfold slice_index.
  case_decide.
  - f_equal. lia.
  - destruct (decide (Z.to_nat n ≤ length paths)).
    + f_equal. lia.
    + rewrite !take_ge; [done | lia | lia].
Qed.

(** X22. The result of [loadPath] does not depend on the order in which the
    file system lists the files, nor on how often a name occurs: two
    listings with the same names give the same songs with the same ids. *)
Theorem X22_loadPath_listing (glob glob' : string → list string)
    (name : string → string) (n : option Z) (lyr_path midi_path : string) :
  (∀ s, s ∈ name <$> glob lyr_path ↔ s ∈ name <$> glob' lyr_path) →
  (∀ s, s ∈ name <$> glob midi_path ↔ s ∈ name <$> glob' midi_path) →
  Files.loadPath glob name n lyr_path midi_path
  = Files.loadPath glob' name n lyr_path midi_path.
Proof.
  intros Hl Hm. unfold Files.loadPath.
  assert ((list_to_set (name <$> glob lyr_path)
           ∩ list_to_set (name <$> glob midi_path) : gset string)
          = list_to_set (name <$> glob' lyr_path)
            ∩ list_to_set (name <$> glob' midi_path)) as ->; [| done].
  apply set_eq. intros s.
  by rewrite !elem_of_intersection, !elem_of_list_to_set, Hl, Hm.
Qed.

Lemma X22_loadPath_listing_witness :
  Files.loadPath Files.corpus_glob Files.corpus_name None "seg/*.txt" "csv/*.csv"
  = Files.loadPath (λ pattern, reverse (Files.corpus_glob pattern))
      Files.corpus_name None "seg/*.txt" "csv/*.csv".
Proof.
  apply X22_loadPath_listing.
  - intros s. by rewrite fmap_reverse, elem_of_reverse.
  - intros s. by rewrite fmap_reverse, elem_of_reverse.
Defined.

(** X23. The split of [save]: with [split = 0] it raises
    [ZeroDivisionError], and it raises nothing else.  For any other [split]
    the shuffled paths are cut in two: [valid] is their beginning and
    [train] the rest, so every path is in exactly one of the two places;
    [valid] has [n // split] paths for [split >= 1], and for a negative
    [split] it is [train] that has [-(n // split)] paths, the last ones. *)
Theorem X23_save_split {A} (g : Random.rng) (paths : list A) (split : Z) :
  (∀ e, Files.save_split g paths split = Err e
        ↔ split = 0%Z ∧ e = ZeroDivisionError)
  ∧ (split ≠ 0%Z →
     ∃ train valid,
       Files.save_split g paths split = Ok (train, valid)
       ∧ valid ++ train = (Random.shuffle g paths).1
       ∧ valid ++ train ≡ₚ paths
       ∧ ((1 ≤ split)%Z →
          length valid = Z.to_nat (Z.of_nat (length paths) `div` split))
       ∧ ((split < 0)%Z →
          length train = Z.to_nat (- (Z.of_nat (length paths) `div` split)))).
Proof.
  unfold Files.save_split.
  pose proof (shuffle_Permutation g paths) as Hperm.
  set (l := (Random.shuffle g paths).1) in *.
  assert (length l = length paths) as Hlen by by rewrite Hperm.
  split.
  - intros e. case_decide; split.
    + by intros [= <-].
    + by intros [_ ->].
    + intros [=].
    + by intros [? _].
  - intros Hsplit. rewrite decide_False by done. eexists _, _.
    split; [done |]. rewrite slice_prefix, slice_suffix.
    set (k := (Z.of_nat (length l) `div` split)%Z).
    destruct (floordiv_bounds (Z.of_nat (length l)) split ltac:(lia))
      as [Hpos Hneg].
    fold k in Hpos, Hneg.
    assert (slice_index (length l) k
            = if decide (k < 0)%Z then length l - Z.to_nat (- k)
              else Z.to_nat k) as Hk.
    { unfold slice_index. case_decide; lia. }
    split_and!.
    + apply take_drop.
    + by rewrite take_drop.
    + intros Hs. rewrite length_take, Hk, <- Hlen. fold k.
      specialize (Hpos ltac:(lia)). clearbody k.
      rewrite decide_False by lia. lia.
    + intros Hs. rewrite length_drop, Hk, <- Hlen. fold k.
      specialize (Hneg Hs). clearbody k. case_decide; lia.
Qed.

(** X24. [save] never puts a song in both files: of the paths that
    [loadPath()] lists, no name and no id occurs in both [train] and
    [valid], and every song that has a lyrics file and a score is in one of
    them. *)
Theorem X24_save_no_overlap (glob : string → list string)
    (name : string → string) (g : Random.rng) (split : Z)
    (lyr_path midi_path : string) (train valid : list Files.path) :
  Files.save_split g (Files.loadPath glob name None lyr_path midi_path) split
  = Ok (train, valid) →
  (∀ p q, p ∈ train → q ∈ valid →
     Files.path_name p ≠ Files.path_name q ∧ Files.path_id p ≠ Files.path_id q)
  ∧ (∀ s, s ∈ name <$> glob lyr_path ∧ s ∈ name <$> glob midi_path
          ↔ s ∈ Files.path_name <$> train ∨ s ∈ Files.path_name <$> valid).
Proof.
  intros Hsave.
  set (paths := Files.loadPath glob name None lyr_path midi_path) in *.
  destruct (save_split_Ok g paths split train valid Hsave) as [Happ Hperm].
  assert (NoDup (Files.path_name <$> valid ++ train)) as Hnames.
  { rewrite Hperm. apply loadPath_names_NoDup. }
  assert (NoDup (Files.path_id <$> valid ++ train)) as Hids.
  { rewrite Hperm. unfold paths. rewrite loadPath_ids. apply NoDup_seq. }
  rewrite fmap_app in Hnames. rewrite fmap_app in Hids.
  apply NoDup_app in Hnames as (_ & Hnames & _).
  apply NoDup_app in Hids as (_ & Hids & _).
  split.
  - intros p q Hp Hq. split.
    + intros Heq. apply (Hnames (Files.path_name q)).
      * apply list_elem_of_fmap. eauto.
      * rewrite <- Heq. apply list_elem_of_fmap. eauto.
    + intros Heq. apply (Hids (Files.path_id q)).
      * apply list_elem_of_fmap. eauto.
      * rewrite <- Heq. apply list_elem_of_fmap. eauto.
  - intros s. rewrite <- (loadPath_name_elem_of glob name). fold paths.
    rewrite <- Hperm, fmap_app, elem_of_app. tauto.
Qed.

Lemma X24_save_no_overlap_witness :
  Files.save_split Scenario.rng
    (Files.loadPath Files.corpus_glob Files.corpus_name None
       "seg/*.txt" "csv/*.csv") 2
  = Ok ([(0, "a", "seg/a.txt", "csv/a.csv");
         (1, "b", "seg/b.txt", "csv/b.csv")],
        [(2, "c", "seg/c.txt", "csv/c.csv")])
  ∧ Files.path_name (1, "b", "seg/b.txt", "csv/b.csv")
    ≠ Files.path_name (2, "c", "seg/c.txt", "csv/c.csv").
Proof.
  split; [reflexivity |].
  refine (proj1 (proj1 (X24_save_no_overlap Files.corpus_glob Files.corpus_name
                          Scenario.rng 2 "seg/*.txt" "csv/*.csv" _ _ eq_refl)
                   _ _ _ _)).
  - apply list_elem_of_further, list_elem_of_here.
  - apply list_elem_of_here.
Defined.
